(** * Shallow embedding of the secure password generator ([src/project/core.py])

    Characters are Unicode code points ([nat]); a Python [str] is a
    [list nat].  A Python [set] followed by [sorted] is [sort_uniq].
    [sys.exit] and the exceptions raised by the standard library are the
    constructors of [err]; the secure random source ([secrets.randbelow],
    [secrets.choice]) is an oracle threaded through a small state monad. *)

From Stdlib Require Import List Arith Lia ZArith String Ascii Bool Setoid.
From Stdlib Require Import Sorting.Sorted Sorting.Permutation.
From Stdlib Require Import Floats.
Import ListNotations.
Open Scope string_scope.
Open Scope list_scope.

(** ** Strings and character constants *)

(** Code points of a string literal. *)
Definition chars (s : string) : list nat :=
  map nat_of_ascii (list_ascii_of_string s).

Definition mem (c : nat) (s : list nat) : bool := existsb (Nat.eqb c) s.

(** [string.ascii_lowercase], [string.ascii_uppercase], [string.digits]. *)
Definition ascii_lowercase : list nat := chars "abcdefghijklmnopqrstuvwxyz".
Definition ascii_uppercase : list nat := chars "ABCDEFGHIJKLMNOPQRSTUVWXYZ".
Definition string_digits : list nat := chars "0123456789".

(** [string.punctuation]; the double quote (code point 34) is spliced in. *)
Definition punctuation : list nat :=
  chars "!" ++ [34] ++ chars "#$%&'()*+,-./:;<=>?@[\]^_`{|}~".

(** [AMBIGUOUS_DEFAULT]: the look-alike glyphs of the source, with the double
    quote (code point 34) spliced in. *)
Definition AMBIGUOUS_DEFAULT : list nat :=
  chars "O0oIl1|`'" ++ [34] ++ chars "{}[]()/\;:,.<>".

Definition URL_SAFE_UNRESERVED : list nat :=
  chars "ABCDEFGHIJKLMNOPQRSTUVWXYZabcdefghijklmnopqrstuvwxyz0123456789-._~".

(** [set("\r\n\t ")]. *)
Definition whitespace : list nat := [13; 10; 9; 32].

(** ** [sorted(set(xs))]: the ascending list of the distinct elements *)

Fixpoint ins (c : nat) (l : list nat) : list nat :=
  match l with
  | [] => [c]
  | x :: l' =>
      if Nat.ltb c x then c :: l
      else if Nat.eqb c x then l
      else x :: ins c l'
  end.

Definition sort_uniq (l : list nat) : list nat := fold_right ins [] l.

(** ** Errors: the [sys.exit] messages and the exceptions of the code *)

Inductive err :=
| EmptySelection            (* build_pool: no character classes selected *)
| EmptyPool                 (* build_pool: pool empty after filters *)
| InvalidLength             (* ensure_requirements: --length must be >= 1 *)
| PoolTooSmall              (* ensure_requirements: --no-repeat, length > pool *)
| UnsatisfiableClass (missing : list string)
| LengthBelowClassCount     (* ensure_requirements: length < #classes *)
| InsufficientUniqueChars   (* generate_passwords: --no-repeat fill *)
| IndexError                (* secrets.choice on an empty sequence *)
| ValueError                (* secrets.randbelow(n) with n <= 0 *)
| KeyError                  (* pool_map[name] for an unknown name *)
| OverflowError.            (* float(n) on an int too large for a double *)

(** ** The argparse namespace ([args]) *)

Record Args := mkArgs {
  length : Z;
  count : Z;
  lower : bool;
  upper : bool;
  digits : bool;
  symbols : bool;
  symbols_set : option (list nat);
  exclude : list nat;
  no_ambiguous : bool;
  no_repeat : bool;
  require_classes : bool;
  url_safe : bool;
  prefix : list nat;
  suffix : list nat
}.

(** ** Python dicts with string keys, as association lists in insertion order *)

Fixpoint get {A} (k : string) (d : list (string * A)) : option A :=
  match d with
  | [] => None
  | (k', v) :: d' => if String.eqb k k' then Some v else get k d'
  end.

(** ** [build_pool] *)

Definition build_pool (args : Args) : err + (list nat * list string) :=
  let includes_specified :=
    existsb (fun b => b) [lower args; upper args; digits args; symbols args] in
  let classes : list (string * list nat) :=
    [("lower", ascii_lowercase); ("upper", ascii_uppercase); ("digits", string_digits);
     ("symbols", match symbols_set args with
                 | None => punctuation
                 | Some s => s
                 end)] in
  let '(pool_parts, class_names) :=
    if url_safe args then ([URL_SAFE_UNRESERVED], ["url_safe"])
    else
      let selected_classes : list (string * bool) :=
        if includes_specified then
          [("lower", lower args); ("upper", upper args);
           ("digits", digits args); ("symbols", symbols args)]
        else [("lower", true); ("upper", true); ("digits", true); ("symbols", true)] in
      (map snd (filter (fun nc => match get (fst nc) selected_classes with
                                  | Some ok => ok
                                  | None => false
                                  end) classes),
       map fst (filter snd selected_classes)) in
  match pool_parts with
  | [] => inl EmptySelection
  | _ =>
      let pool := sort_uniq (List.concat pool_parts) in
      let pool := if no_ambiguous args && negb (url_safe args)
                  then filter (fun c => negb (mem c AMBIGUOUS_DEFAULT)) pool
                  else pool in
      let pool := match exclude args with
                  | [] => pool
                  | ex => filter (fun c => negb (mem c ex)) pool
                  end in
      let pool := filter (fun c => negb (mem c whitespace)) pool in
      match pool with
      | [] => inl EmptyPool
      | _ => inr (sort_uniq pool, class_names)
      end
  end.

(** ** [build_pool_map]: [sorted(set(pool) & set(base))] per named class *)

Definition inter_sorted (pool base : list nat) : list nat :=
  sort_uniq (filter (fun c => mem c base) pool).

Definition build_pool_map (pool : list nat) : list (string * list nat) :=
  [("lower", inter_sorted pool ascii_lowercase);
   ("upper", inter_sorted pool ascii_uppercase);
   ("digits", inter_sorted pool string_digits);
   ("symbols", inter_sorted pool punctuation)].

(** ** [ensure_requirements] *)

(** A Python truth test of [pool_map.get(n)]: [None] and [""] are false. *)
Definition truthy (o : option (list nat)) : bool :=
  match o with
  | Some (_ :: _) => true
  | _ => false
  end.

Definition ensure_requirements (length : Z) (class_names : list string)
    (require_classes no_repeat : bool) (pool : list nat) : err + unit :=
  if (length <? 1)%Z then inl InvalidLength
  else if no_repeat && (length >? Z.of_nat (List.length pool))%Z then inl PoolTooSmall
  else if require_classes && negb (existsb (String.eqb "url_safe") class_names) then
    let pool_map := build_pool_map pool in
    let missing := filter (fun n => negb (truthy (get n pool_map))) class_names in
    match missing with
    | _ :: _ => inl (UnsatisfiableClass missing)
    | [] =>
        let needed := Z.of_nat (List.length class_names) in
        if (length <? needed)%Z then inl LengthBelowClassCount else inr tt
    end
  else inr tt.

(** ** The secure random source, as a state monad over the draw counter *)

Definition M (A : Type) : Type := nat -> err + (A * nat).

Definition ret {A} (x : A) : M A := fun st => inr (x, st).

Definition bind {A B} (m : M A) (k : A -> M B) : M B :=
  fun st => match m st with
            | inl e => inl e
            | inr (x, st') => k x st'
            end.

Definition raise {A} (e : err) : M A := fun _ => inl e.

Notation "x <- m ;; k" := (bind m (fun x => k))
  (at level 61, m at next level, right associativity).

Section Generator.

(** [draw k] is the raw output of the k-th call of the secure source; every
    behaviour of [secrets] is obtained for some [draw]. *)
Variable draw : nat -> nat.

(** [secrets.randbelow(n)]: a value in [0, n); [ValueError] when n <= 0. *)
Definition randbelow (n : nat) : M nat :=
  fun st => match n with
            | 0 => inl ValueError
            | _ => inr (draw st mod n, S st)
            end.

(** [secrets.choice(s)]: [s[randbelow(len(s))]]; [IndexError] on an empty sequence. *)
Definition choice (s : list nat) : M nat :=
  match s with
  | [] => raise IndexError
  | _ => j <- randbelow (List.length s) ;; ret (nth j s 0)
  end.

(** [lst[i] = v]; the indices used below are always in range. *)
Fixpoint set_nth (i : nat) (v : nat) (l : list nat) : list nat :=
  match l, i with
  | [], _ => []
  | _ :: l', 0 => v :: l'
  | x :: l', S i' => x :: set_nth i' v l'
  end.

(** [lst[i], lst[j] = lst[j], lst[i]]: [lst[i]] is assigned first. *)
Definition swap (l : list nat) (i j : nat) : list nat :=
  let vi := nth i l 0 in
  let vj := nth j l 0 in
  set_nth j vi (set_nth i vj l).

(** The iterations [i = k, k-1, ..., 1] of the Fisher-Yates loop. *)
Fixpoint fisher_yates (k : nat) (l : list nat) : M (list nat) :=
  match k with
  | 0 => ret l
  | S k' =>
      j <- randbelow (k + 1) ;;
      fisher_yates k' (swap l k j)
  end.

(** [secure_shuffle]: [for i in range(len(lst) - 1, 0, -1)]. *)
Definition secure_shuffle (lst : list nat) : M (list nat) :=
  fisher_yates (List.length lst - 1) lst.

(** [pick_from_each_class] *)
Fixpoint pick_from_each_class (class_names : list string)
    (pool_map : list (string * list nat)) : M (list nat) :=
  match class_names with
  | [] => ret []
  | name :: rest =>
      if String.eqb name "url_safe" then pick_from_each_class rest pool_map
      else match get name pool_map with
           | None => raise KeyError
           | Some s =>
               c <- choice s ;;
               picks <- pick_from_each_class rest pool_map ;;
               ret (c :: picks)
           end
  end.

(** [for _i in range(remaining): chars.append(choice(pool))] *)
Fixpoint choices (n : nat) (pool : list nat) : M (list nat) :=
  match n with
  | 0 => ret []
  | S n' => c <- choice pool ;; cs <- choices n' pool ;; ret (c :: cs)
  end.

(** Step 1 of the loop body: the mandatory per-class characters. *)
Definition seed (pool_map : list (string * list nat)) (class_names : list string)
    (args : Args) : M (list nat) :=
  if require_classes args && negb (url_safe args)
  then pick_from_each_class class_names pool_map
  else ret [].

(** One iteration of the loop of [generate_passwords]. *)
Definition generate_one (pool : list nat) (pool_map : list (string * list nat))
    (class_names : list string) (args : Args) : M (list nat) :=
  chars <- seed pool_map class_names args ;;
  let remaining := (length args - Z.of_nat (List.length chars))%Z in
  let remaining := if (remaining <? 0)%Z then 0%Z else remaining in
  fill <- (if no_repeat args then
             let used := chars in
             let available := filter (fun c => negb (mem c used)) pool in
             av_list <- secure_shuffle available ;;
             if (Z.of_nat (List.length av_list) <? remaining)%Z
             then raise InsufficientUniqueChars
             else ret (firstn (Z.to_nat remaining) av_list)
           else choices (Z.to_nat remaining) pool) ;;
  chars <- secure_shuffle (chars ++ fill) ;;
  let core := chars in
  ret (prefix args ++ core ++ suffix args).

Fixpoint generate_loop (n : nat) (pool : list nat)
    (pool_map : list (string * list nat)) (class_names : list string)
    (args : Args) : M (list (list nat)) :=
  match n with
  | 0 => ret []
  | S n' =>
      pwd <- generate_one pool pool_map class_names args ;;
      passwords <- generate_loop n' pool pool_map class_names args ;;
      ret (pwd :: passwords)
  end.

(** [generate_passwords]: [for _ in range(args.count)]. *)
Definition generate_passwords (pool : list nat) (class_names : list string)
    (args : Args) : M (list (list nat)) :=
  let pool_map := build_pool_map pool in
  generate_loop (Z.to_nat (count args)) pool pool_map class_names args.

End Generator.

(** ** [bits_of_entropy] over binary64 floats *)

(** Python's conversion of an [int] to [float] (done by [int * float]):
    rounded to the nearest double, ties to even; [OverflowError] when the
    rounded value is out of range. *)
Definition int_to_float (n : Z) : err + float :=
  match SpecFloat.binary_normalize 53 1024 n 0 false with
  | SpecFloat.S754_infinity _ => inl OverflowError
  | sf => inr (FloatOps.SF2Prim sf)
  end.

Section Entropy.

(** [math.log2] on an [int]; the primitive floats have no logarithm. *)
Variable log2 : Z -> float.

(** [length * math.log2(pool_size)]: [length] is converted to a float. *)
Definition bits_of_entropy (pool_size length : Z) : err + float :=
  if (pool_size <=? 1)%Z || (length <=? 0)%Z then inr 0.0%float
  else match int_to_float length with
       | inl e => inl e
       | inr f => inr (PrimFloat.mul f (log2 pool_size))
       end.

End Entropy.

(** * Data-model invariants and spec-side notions *)

(** The four standard classes and their base sets, in the order of the
    [classes] dict of [build_pool] (symbols without an override). *)
Definition standard_classes : list (string * list nat) :=
  [("lower", ascii_lowercase); ("upper", ascii_uppercase);
   ("digits", string_digits); ("symbols", punctuation)].

(** CharacterPool: a duplicate-free, non-empty collection of characters. *)
Definition pool_ok (pool : list nat) : Prop := NoDup pool /\ pool <> [].

(** ActiveClasses: distinct standard class names, or the sentinel alone. *)
Definition active_classes_ok (class_names : list string) : Prop :=
  NoDup class_names /\
  (class_names = ["url_safe"] \/
   forall n, In n class_names -> In n (map fst standard_classes)).

(** Spec §4.2, as worded: the pool slice of a class is empty. *)
Definition slice_empty (pool : list nat) (n : string) : bool :=
  match get n standard_classes with
  | Some base => negb (existsb (fun c => mem c base) pool)
  | None => true
  end.

(** Spec §4.2, as worded: the validator's decision list. *)
Definition validate_spec (length : Z) (active_classes : list string)
    (require_classes no_repeat : bool) (pool : list nat) : err + unit :=
  if (length <? 1)%Z then inl InvalidLength
  else if no_repeat && (Z.of_nat (List.length pool) <? length)%Z then inl PoolTooSmall
  else if require_classes && negb (if list_eq_dec string_dec active_classes ["url_safe"]
                                    then true else false) then
    match filter (slice_empty pool) active_classes with
    | [] => if (length <? Z.of_nat (List.length active_classes))%Z
            then inl LengthBelowClassCount else inr tt
    | missing => inl (UnsatisfiableClass missing)
    end
  else inr tt.

(** The URL-safe set of spec §4.1, written as [A-Z a-z 0-9 - . _ ~]. *)
Definition url_unreserved_spec : list nat :=
  seq 65 26 ++ seq 97 26 ++ seq 48 10 ++ chars "-._~".

(** [args] with a different [require_classes] / with all four class flags set. *)
Definition with_require_classes (args : Args) (b : bool) : Args :=
  mkArgs (length args) (count args) (lower args) (upper args) (digits args)
    (symbols args) (symbols_set args) (exclude args) (no_ambiguous args)
    (no_repeat args) b (url_safe args) (prefix args) (suffix args).

Definition with_all_classes (args : Args) : Args :=
  mkArgs (length args) (count args) true true true true
    (symbols_set args) (exclude args) (no_ambiguous args)
    (no_repeat args) (require_classes args) (url_safe args) (prefix args) (suffix args).

(** * The CLI layer ([src/project/cli.py]) *)

(** Lines 56-59 of [main]: build the pool, validate, generate. *)
Definition main_passwords (draw : nat -> nat) (args : Args) : M (list (list nat)) :=
  match build_pool args with
  | inl e => raise e
  | inr (pool, class_names) =>
      match ensure_requirements (length args) class_names (require_classes args)
              (no_repeat args) pool with
      | inl e => raise e
      | inr tt => generate_passwords draw pool class_names args
      end
  end.

(** The test [any(ch in p for ch in ...)] over comma, double quote and newline. *)
Definition csv_needs_quotes (p : list nat) : bool :=
  existsb (fun ch => mem ch p) [44; 34; 10].

(** [p.replace(...)] doubling every double quote. *)
Fixpoint double_quotes (p : list nat) : list nat :=
  match p with
  | [] => []
  | x :: r => if Nat.eqb x 34 then 34 :: 34 :: double_quotes r else x :: double_quotes r
  end.

(** The line [_print_csv] prints for one password. *)
Definition csv_cell (p : list nat) : list nat :=
  if csv_needs_quotes p then [34] ++ double_quotes p ++ [34] else p.

(** [_print_csv]: the printed lines, header first. *)
Definition print_csv (passwords : list (list nat)) : list (list nat) :=
  chars "password" :: map csv_cell passwords.

(** Standard CSV unquoting of one field (not in the source): a field that
    opens with a quote loses its enclosing quotes and has each doubled quote
    collapsed; any other field is taken as it is. *)
Fixpoint undouble_quotes (f : list nat) : list nat :=
  match f with
  | [] => []
  | x :: r =>
      if Nat.eqb x 34 then
        match r with
        | y :: r' => if Nat.eqb y 34 then 34 :: undouble_quotes r' else x :: undouble_quotes r
        | [] => [x]
        end
      else x :: undouble_quotes r
  end.

Definition csv_decode_cell (f : list nat) : list nat :=
  match f with
  | 34 :: rest => undouble_quotes (removelast rest)
  | _ => f
  end.

(** The characters each active class name contributes in [build_pool]
    (the [classes] dict, with the symbols override, plus the URL-safe set). *)
Definition class_chars (args : Args) (n : string) : list nat :=
  match get n [("lower", ascii_lowercase); ("upper", ascii_uppercase);
               ("digits", string_digits);
               ("symbols", match symbols_set args with
                           | None => punctuation
                           | Some s => s
                           end);
               ("url_safe", URL_SAFE_UNRESERVED)] with
  | Some s => s
  | None => []
  end.

(** * Sanity checks on concrete inputs *)

Definition default_args : Args :=
  mkArgs 16 1 false false false false None [] false false false false [] [].

(** [--lower --no-repeat --require-classes -l 3 -n 2 --prefix x]. *)
Definition sample_args : Args :=
  mkArgs 3 2 true false false false None [] false true true false (chars "x") [].

(** [--url-safe --require-classes -l 10] (with a stray [--lower]). *)
Definition url_args : Args :=
  mkArgs 10 1 true false false false None [] true false true true [] [].

Definition sample_draw (k : nat) : nat := k * 7 + 3.

(** Digits only, without [0], no ambiguous characters, distinct characters, prefix [pw-]. *)
Definition digit_args : Args :=
  mkArgs 4 2 false false true false None (chars "0") true true false false (chars "pw-") [].

(** Digits without [0..6], distinct characters, as long as the pool. *)
Definition full_args : Args :=
  mkArgs 3 2 false false true false None (chars "0123456") false true true false [] [].

Example build_pool_default :
  build_pool default_args =
  inr (sort_uniq (ascii_lowercase ++ ascii_uppercase ++ string_digits ++ punctuation),
       ["lower"; "upper"; "digits"; "symbols"]).
Proof. vm_compute. reflexivity. Qed.

Example gen_example :
  generate_passwords (fun k => k * 7 + 3) (chars "abc") ["lower"]
    (mkArgs 3 2 true false false false None [] false true true false (chars "x") []) 0
  = inr ([chars "xcab"; chars "xcab"], 8).
Proof. vm_compute. reflexivity. Qed.

(** * Lemmas on the embedded helpers *)

(** ** [sort_uniq] *)

Lemma mem_In c s : mem c s = true <-> In c s.
Proof.
  unfold mem. rewrite existsb_exists. split.
  - intros (x & Hx & E). apply Nat.eqb_eq in E. now subst.
  - intros H. exists c. split; [exact H | apply Nat.eqb_refl].
Qed.

Lemma In_ins x c l : In x (ins c l) <-> x = c \/ In x l.
Proof.
  induction l as [|y l IH]; simpl.
  - intuition (subst; auto).
  - destruct (Nat.ltb c y) eqn:Hlt; [simpl; intuition (subst; auto)|].
    destruct (Nat.eqb c y) eqn:Heq.
    + apply Nat.eqb_eq in Heq. subst. simpl. intuition (subst; auto).
    + simpl. rewrite IH. intuition (subst; auto).
Qed.

Lemma In_sort_uniq x l : In x (sort_uniq l) <-> In x l.
Proof.
  induction l as [|c l IH]; simpl.
  - tauto.
  - rewrite In_ins, IH. intuition (subst; auto).
Qed.

Lemma HdRel_ins x c l :
  x < c -> HdRel lt x l -> HdRel lt x (ins c l).
Proof.
  intros Hxc Hd. destruct l as [|y l]; simpl.
  - now constructor.
  - inversion Hd; subst.
    destruct (Nat.ltb c y); [now constructor|].
    destruct (Nat.eqb c y); now constructor.
Qed.

Lemma Sorted_ins c l : Sorted lt l -> Sorted lt (ins c l).
Proof.
  induction 1 as [|y l Hs IH Hd]; simpl.
  - repeat constructor.
  - destruct (Nat.ltb c y) eqn:Hlt.
    + apply Nat.ltb_lt in Hlt. constructor; [now constructor | now constructor].
    + destruct (Nat.eqb c y) eqn:Heq.
      * now constructor.
      * apply Nat.ltb_ge in Hlt. apply Nat.eqb_neq in Heq.
        constructor; [exact IH|]. apply HdRel_ins; [lia | exact Hd].
Qed.

Lemma Sorted_sort_uniq l : Sorted lt (sort_uniq l).
Proof.
  induction l as [|c l IH]; simpl; [constructor | now apply Sorted_ins].
Qed.

Lemma Sorted_lt_NoDup l : Sorted lt l -> NoDup l.
Proof.
  intros Hs. apply Sorted_StronglySorted in Hs; [|intros ? ? ?; lia].
  induction Hs as [|x l _ IH Hall]; constructor; [|exact IH].
  intros Hin. rewrite Forall_forall in Hall. specialize (Hall x Hin). lia.
Qed.

Lemma NoDup_sort_uniq l : NoDup (sort_uniq l).
Proof. apply Sorted_lt_NoDup, Sorted_sort_uniq. Qed.

Lemma In_inter_sorted c pool base :
  In c (inter_sorted pool base) <-> In c pool /\ In c base.
Proof.
  unfold inter_sorted. rewrite In_sort_uniq, filter_In, mem_In. tauto.
Qed.

(** ** [swap] is a permutation *)

Lemma length_set_nth i v l : List.length (set_nth i v l) = List.length l.
Proof.
  revert i; induction l as [|x l IH]; intros [|i]; simpl; auto.
Qed.

Lemma Permutation_set_nth_front x j l :
  j < List.length l ->
  Permutation (x :: l) (nth j l 0 :: set_nth j x l).
Proof.
  revert j; induction l as [|y l IH]; intros j Hj; simpl in Hj; [lia|].
  destruct j as [|j]; simpl.
  - apply perm_swap.
  - eapply perm_trans; [apply perm_swap|].
    eapply perm_trans; [apply perm_skip, (IH j); lia|].
    apply perm_swap.
Qed.

Lemma set_nth_nth i l : set_nth i (nth i l 0) l = l.
Proof.
  revert i; induction l as [|x l IH]; intros [|i]; simpl; auto.
  now rewrite IH.
Qed.

Lemma swap_perm l i j :
  i < List.length l -> j < List.length l -> Permutation l (swap l i j).
Proof.
  unfold swap. revert i j.
  induction l as [|x l IH]; intros i j Hi Hj; simpl in *; [lia|].
  destruct i as [|i], j as [|j]; simpl.
  - reflexivity.
  - apply Permutation_set_nth_front. lia.
  - apply Permutation_set_nth_front. lia.
  - apply perm_skip. apply IH; lia.
Qed.

(** ** The random primitives *)

Section Primitives.

Variable draw : nat -> nat.

Lemma randbelow_spec n st j st' :
  randbelow draw n st = inr (j, st') -> j < n.
Proof.
  unfold randbelow. destruct n as [|n]; [discriminate|].
  intros H. assert (Hm : draw st mod S n < S n) by (apply Nat.mod_upper_bound; lia).
  injection H as Hj _. subst j. exact Hm.
Qed.

Lemma randbelow_ok n st : 0 < n -> exists j, randbelow draw n st = inr (j, S st).
Proof.
  unfold randbelow. destruct n as [|n]; [lia|]. intros _. eauto.
Qed.

Lemma choice_spec s st c st' :
  choice draw s st = inr (c, st') -> In c s.
Proof.
  unfold choice. destruct s as [|x s]; [discriminate|].
  unfold bind. destruct (randbelow draw _ st) as [|[j st1]] eqn:E; [discriminate|].
  apply randbelow_spec in E. unfold ret. intros H. injection H as <- _.
  exact (nth_In (x :: s) 0 E).
Qed.

Lemma choice_ok s st : s <> [] -> exists c st', choice draw s st = inr (c, st').
Proof.
  intros Hs. unfold choice. destruct s as [|x s]; [congruence|].
  destruct (randbelow_ok (List.length (x :: s)) st) as [j Hj]; [simpl; lia|].
  unfold bind. rewrite Hj. unfold ret. eauto.
Qed.

Lemma fisher_yates_ok k l st :
  k <= List.length l - 1 ->
  exists l' st', fisher_yates draw k l st = inr (l', st') /\ Permutation l l'.
Proof.
  revert l st; induction k as [|k IH]; intros l st Hk; cbn [fisher_yates].
  - exists l, st. split; [reflexivity | apply Permutation_refl].
  - destruct (randbelow_ok (S k + 1) st) as [j Hj]; [lia|].
    pose proof (randbelow_spec _ _ _ _ Hj) as Hjlt.
    unfold bind. rewrite Hj.
    assert (Hp : Permutation l (swap l (S k) j)) by (apply swap_perm; lia).
    destruct (IH (swap l (S k) j) (S st)) as (l' & st' & E & P).
    { rewrite <- (Permutation_length Hp). lia. }
    exists l', st'. split; [exact E | eapply perm_trans; eauto].
Qed.

Lemma secure_shuffle_ok l st :
  exists l' st', secure_shuffle draw l st = inr (l', st') /\ Permutation l l'.
Proof. apply fisher_yates_ok. lia. Qed.

Lemma secure_shuffle_spec l st l' st' :
  secure_shuffle draw l st = inr (l', st') -> Permutation l l'.
Proof.
  intros H. destruct (secure_shuffle_ok l st) as (l2 & st2 & E & P).
  rewrite H in E. injection E as -> _. exact P.
Qed.

End Primitives.

(** ** Lists *)

Lemma NoDup_firstn n (l : list nat) : NoDup l -> NoDup (firstn n l).
Proof.
  intros H. rewrite <- (firstn_skipn n l) in H. exact (NoDup_app_remove_r _ _ H).
Qed.

Lemma In_firstn_In n (l : list nat) c : In c (firstn n l) -> In c l.
Proof.
  intros H. rewrite <- (firstn_skipn n l). apply in_or_app. now left.
Qed.

Lemma build_pool_map_eq pool :
  build_pool_map pool = map (fun nb => (fst nb, inter_sorted pool (snd nb))) standard_classes.
Proof. reflexivity. Qed.

Lemma get_pool_map n pool s :
  get n (build_pool_map pool) = Some s ->
  exists base, get n standard_classes = Some base /\ s = inter_sorted pool base.
Proof.
  unfold build_pool_map, standard_classes. simpl.
  destruct (String.eqb n "lower"); [intros H; injection H as <-; eauto|].
  destruct (String.eqb n "upper"); [intros H; injection H as <-; eauto|].
  destruct (String.eqb n "digits"); [intros H; injection H as <-; eauto|].
  destruct (String.eqb n "symbols"); [intros H; injection H as <-; eauto|].
  discriminate.
Qed.

Lemma get_standard_pool_map n pool base :
  get n standard_classes = Some base ->
  get n (build_pool_map pool) = Some (inter_sorted pool base).
Proof.
  unfold build_pool_map, standard_classes. simpl.
  destruct (String.eqb n "lower"); [intros H; injection H as <-; eauto|].
  destruct (String.eqb n "upper"); [intros H; injection H as <-; eauto|].
  destruct (String.eqb n "digits"); [intros H; injection H as <-; eauto|].
  destruct (String.eqb n "symbols"); [intros H; injection H as <-; eauto|].
  discriminate.
Qed.

(** The four base sets are pairwise disjoint. *)
Lemma standard_classes_disjoint n1 n2 b1 b2 c :
  get n1 standard_classes = Some b1 -> get n2 standard_classes = Some b2 ->
  In c b1 -> In c b2 -> n1 = n2.
Proof.
  assert (Hdis : forall b1 b2, In b1 (map snd standard_classes) ->
            In b2 (map snd standard_classes) -> b1 <> b2 ->
            forallb (fun c => negb (mem c b2)) b1 = true).
  { intros x y Hx Hy Hxy. simpl in Hx, Hy.
    repeat (destruct Hx as [<-|Hx]); try contradiction;
    repeat (destruct Hy as [<-|Hy]); try contradiction;
    try (exfalso; apply Hxy; reflexivity); vm_compute; reflexivity. }
  unfold standard_classes; simpl.
  intros H1 H2 Hc1 Hc2.
  destruct (String.eqb n1 "lower") eqn:E1; [apply String.eqb_eq in E1|];
  destruct (String.eqb n1 "upper") eqn:F1; try (apply String.eqb_eq in F1);
  destruct (String.eqb n1 "digits") eqn:G1; try (apply String.eqb_eq in G1);
  destruct (String.eqb n1 "symbols") eqn:K1; try (apply String.eqb_eq in K1);
  destruct (String.eqb n2 "lower") eqn:E2; try (apply String.eqb_eq in E2);
  destruct (String.eqb n2 "upper") eqn:F2; try (apply String.eqb_eq in F2);
  destruct (String.eqb n2 "digits") eqn:G2; try (apply String.eqb_eq in G2);
  destruct (String.eqb n2 "symbols") eqn:K2; try (apply String.eqb_eq in K2);
  subst; try discriminate; try reflexivity;
  injection H1 as <-; injection H2 as <-;
  exfalso;
  match goal with
  | Hc1 : In c ?x, Hc2 : In c ?y |- _ =>
      assert (Hf : forallb (fun c => negb (mem c y)) x = true)
        by (apply Hdis; [simpl; tauto | simpl; tauto | vm_compute; discriminate]);
      rewrite forallb_forall in Hf; specialize (Hf c Hc1);
      apply negb_true_iff in Hf; rewrite <- mem_In in Hc2; congruence
  end.
Qed.

(** ** Seeding, filling and one loop iteration *)

Section GeneratorLemmas.

Variable draw : nat -> nat.

Definition non_url (n : string) : bool := negb (String.eqb n "url_safe").

(** A seed is one character of the named slice per non-sentinel name. *)
Definition seeded_from (pool_map : list (string * list nat)) (n : string) (c : nat) : Prop :=
  exists s, get n pool_map = Some s /\ In c s.

Lemma pick_spec names pm st picks st' :
  pick_from_each_class draw names pm st = inr (picks, st') ->
  Forall2 (seeded_from pm) (filter non_url names) picks.
Proof.
  revert st picks; induction names as [|n names IH]; intros st picks H; simpl in *.
  - injection H as <- _. constructor.
  - unfold non_url at 1. destruct (String.eqb n "url_safe"); simpl; [eapply IH; eauto|].
    destruct (get n pm) as [s|] eqn:Hg; [|discriminate].
    unfold bind in H. destruct (choice draw s st) as [|[c st1]] eqn:Hc; [discriminate|].
    destruct (pick_from_each_class draw names pm st1) as [|[ps st2]] eqn:Hp; [discriminate|].
    injection H as <- <-. constructor; [|eapply IH; eauto].
    exists s. split; [exact Hg | eapply choice_spec; eauto].
Qed.

Lemma pick_ok names pm st :
  (forall n, In n names -> non_url n = true -> truthy (get n pm) = true) ->
  exists picks st', pick_from_each_class draw names pm st = inr (picks, st').
Proof.
  revert st; induction names as [|n names IH]; intros st Hn; simpl.
  - unfold ret. eauto.
  - assert (Hr : forall m, In m names -> non_url m = true -> truthy (get m pm) = true)
      by (intros; apply Hn; simpl; auto).
    destruct (String.eqb n "url_safe") eqn:Hu; [now apply IH|].
    specialize (Hn n (or_introl eq_refl)). unfold non_url in Hn. rewrite Hu in Hn.
    specialize (Hn eq_refl).
    destruct (get n pm) as [[|x s]|]; simpl in Hn; try discriminate.
    destruct (choice_ok draw (x :: s) st) as (c & st1 & Hc); [discriminate|].
    destruct (IH st1 Hr) as (ps & st2 & Hp).
    unfold bind. rewrite Hc, Hp. unfold ret. eauto.
Qed.

Lemma choices_spec n pool st cs st' :
  choices draw n pool st = inr (cs, st') ->
  List.length cs = n /\ (forall c, In c cs -> In c pool).
Proof.
  revert st cs; induction n as [|n IH]; intros st cs H; simpl in H.
  - injection H as <- _. split; [reflexivity | contradiction].
  - unfold bind in H. destruct (choice draw pool st) as [|[c st1]] eqn:Hc; [discriminate|].
    destruct (choices draw n pool st1) as [|[cs' st2]] eqn:Hr; [discriminate|].
    injection H as <- <-. destruct (IH _ _ Hr) as [Hl Hin].
    split; [simpl; lia|]. intros x [<-|Hx]; [eapply choice_spec; eauto | auto].
Qed.

Lemma choices_ok n pool st :
  pool <> [] -> exists cs st', choices draw n pool st = inr (cs, st').
Proof.
  intros Hp. revert st; induction n as [|n IH]; intros st; simpl; [unfold ret; eauto|].
  destruct (choice_ok draw pool st Hp) as (c & st1 & Hc).
  destruct (IH st1) as (cs & st2 & Hr).
  unfold bind. rewrite Hc, Hr. unfold ret. eauto.
Qed.

Definition seed_rel (pm : list (string * list nat)) (names : list string)
    (args : Args) (seeds : list nat) : Prop :=
  if require_classes args && negb (url_safe args)
  then Forall2 (seeded_from pm) (filter non_url names) seeds
  else seeds = [].

Lemma seed_spec pm names args st seeds st' :
  seed draw pm names args st = inr (seeds, st') -> seed_rel pm names args seeds.
Proof.
  unfold seed, seed_rel. destruct (require_classes args && negb (url_safe args)).
  - apply pick_spec.
  - intros H. now injection H as <- _.
Qed.

(** What one successful iteration of the loop produces. *)
Definition one_rel (pool : list nat) (pm : list (string * list nat))
    (names : list string) (args : Args) (pwd : list nat) : Prop :=
  exists seeds fill core,
    pwd = prefix args ++ core ++ suffix args /\
    Permutation (seeds ++ fill) core /\
    seed_rel pm names args seeds /\
    List.length fill = Z.to_nat (length args - Z.of_nat (List.length seeds)) /\
    (forall c, In c fill -> In c pool) /\
    (no_repeat args = true ->
       (forall c, In c fill -> ~ In c seeds) /\ (NoDup pool -> NoDup fill)).

Lemma generate_one_spec pool pm names args st pwd st' :
  generate_one draw pool pm names args st = inr (pwd, st') ->
  one_rel pool pm names args pwd.
Proof.
  unfold generate_one. unfold bind at 1.
  destruct (seed draw pm names args st) as [|[seeds st1]] eqn:Hs; [discriminate|].
  apply seed_spec in Hs.
  set (r := (length args - Z.of_nat (List.length seeds))%Z).
  assert (Hr : Z.to_nat (if (r <? 0)%Z then 0%Z else r) = Z.to_nat r)
    by (destruct (Z.ltb_spec r 0); lia).
  destruct (no_repeat args) eqn:Hnr.
  - unfold bind. set (avail := filter (fun c => negb (mem c seeds)) pool).
    destruct (secure_shuffle draw avail st1) as [|[av st2]] eqn:Hsh; [discriminate|].
    apply secure_shuffle_spec in Hsh.
    destruct (Z.of_nat (List.length av) <? (if (r <? 0)%Z then 0%Z else r))%Z eqn:Hlt;
      [discriminate|].
    apply Z.ltb_ge in Hlt. unfold ret.
    set (fill := firstn _ av).
    destruct (secure_shuffle draw (seeds ++ fill) st2) as [|[core st3]] eqn:Hsh2;
      [discriminate|].
    apply secure_shuffle_spec in Hsh2.
    intros H. injection H as <- _.
    assert (Hfa : forall c, In c fill -> In c avail).
    { intros c Hc. apply (Permutation_in _ (Permutation_sym Hsh)).
      eapply In_firstn_In; exact Hc. }
    exists seeds, fill, core. repeat split; auto.
    + unfold fill. rewrite length_firstn, Hr. lia.
    + intros c Hc. apply Hfa in Hc. unfold avail in Hc. apply filter_In in Hc. tauto.
    + intros c Hc Hin. apply Hfa in Hc. unfold avail in Hc. apply filter_In in Hc.
      destruct Hc as [_ Hc]. apply negb_true_iff in Hc.
      apply mem_In in Hin. congruence.
    + intros Hnd. apply NoDup_firstn. eapply Permutation_NoDup; [exact Hsh|].
      apply NoDup_filter. exact Hnd.
  - unfold bind.
    destruct (choices draw _ pool st1) as [|[fill st2]] eqn:Hc; [discriminate|].
    apply choices_spec in Hc. destruct Hc as [Hl Hin].
    destruct (secure_shuffle draw (seeds ++ fill) st2) as [|[core st3]] eqn:Hsh2;
      [discriminate|].
    apply secure_shuffle_spec in Hsh2.
    intros H. injection H as <- _.
    exists seeds, fill, core. repeat split; auto; try congruence.
    rewrite Hl. exact Hr.
Qed.

End GeneratorLemmas.

(** ** The loop over [range(args.count)] *)

Section LoopLemmas.

Variable draw : nat -> nat.

Lemma generate_loop_spec n pool pm names args st pwds st' :
  generate_loop draw n pool pm names args st = inr (pwds, st') ->
  List.length pwds = n /\ Forall (one_rel pool pm names args) pwds.
Proof.
  revert st pwds; induction n as [|n IH]; intros st pwds H; simpl in H.
  - injection H as <- _. split; constructor.
  - unfold bind in H.
    destruct (generate_one draw pool pm names args st) as [|[p st1]] eqn:H1; [discriminate|].
    destruct (generate_loop draw n pool pm names args st1) as [|[ps st2]] eqn:H2;
      [discriminate|].
    injection H as <- <-. destruct (IH _ _ H2) as [Hl Hf].
    split; [simpl; lia|]. constructor; [eapply generate_one_spec; eauto | exact Hf].
Qed.

Lemma generate_loop_ok n pool pm names args st :
  (forall st, exists pwd st', generate_one draw pool pm names args st = inr (pwd, st')) ->
  exists pwds st', generate_loop draw n pool pm names args st = inr (pwds, st').
Proof.
  intros Hone. revert st; induction n as [|n IH]; intros st; simpl; [unfold ret; eauto|].
  destruct (Hone st) as (p & st1 & H1). destruct (IH st1) as (ps & st2 & H2).
  unfold bind. rewrite H1, H2. unfold ret. eauto.
Qed.

End LoopLemmas.

(** ** Consequences of a successful validation *)

Lemma url_sentinel_only names :
  active_classes_ok names -> existsb (String.eqb "url_safe") names = true ->
  names = ["url_safe"].
Proof.
  intros [_ [Hs|Hstd]] Hex; [exact Hs|].
  apply existsb_exists in Hex. destruct Hex as (n & Hn & E).
  apply String.eqb_eq in E. subst n. apply Hstd in Hn.
  simpl in Hn. intuition discriminate.
Qed.

Lemma ensure_length_pos len names rc nr pool :
  ensure_requirements len names rc nr pool = inr tt -> (1 <= len)%Z.
Proof.
  unfold ensure_requirements. destruct (Z.ltb_spec len 1); [discriminate | lia].
Qed.

Lemma ensure_pool_size len names rc pool :
  ensure_requirements len names rc true pool = inr tt ->
  (len <= Z.of_nat (List.length pool))%Z.
Proof.
  unfold ensure_requirements. destruct (len <? 1)%Z; [discriminate|].
  simpl. destruct (Z.gtb_spec len (Z.of_nat (List.length pool))); [discriminate | lia].
Qed.

(** With [require_classes] and no sentinel, every class has a non-empty slice
    and there are at most [length] classes. *)
Lemma ensure_classes len names nr pool :
  ensure_requirements len names true nr pool = inr tt ->
  existsb (String.eqb "url_safe") names = false ->
  (forall n, In n names -> truthy (get n (build_pool_map pool)) = true) /\
  (Z.of_nat (List.length names) <= len)%Z.
Proof.
  unfold ensure_requirements. intros H Hu. rewrite Hu in H.
  destruct (len <? 1)%Z; [discriminate|].
  destruct (nr && (len >? Z.of_nat (List.length pool)))%Z; [discriminate|].
  cbn [andb negb] in H.
  destruct (filter _ names) as [|m ms] eqn:Hm; [|discriminate].
  destruct (Z.ltb_spec len (Z.of_nat (List.length names))); [discriminate|].
  split; [|lia].
  intros n Hn. destruct (truthy (get n (build_pool_map pool))) eqn:Ht; [reflexivity|].
  assert (Hin : In n (filter (fun n => negb (truthy (get n (build_pool_map pool)))) names))
    by (apply filter_In; rewrite Ht; auto).
  rewrite Hm in Hin. contradiction.
Qed.

Lemma seeds_bounded pool names args seeds :
  active_classes_ok names ->
  ensure_requirements (length args) names (require_classes args) (no_repeat args) pool
    = inr tt ->
  seed_rel (build_pool_map pool) names args seeds ->
  (Z.of_nat (List.length seeds) <= length args)%Z.
Proof.
  intros Hac Hok Hs. pose proof (ensure_length_pos _ _ _ _ _ Hok) as Hpos.
  unfold seed_rel in Hs.
  destruct (require_classes args) eqn:Hrc; simpl in Hs;
    [|subst seeds; simpl; lia].
  destruct (url_safe args); simpl in Hs; [subst seeds; simpl; lia|].
  apply Forall2_length in Hs. rewrite <- Hs.
  destruct (existsb (String.eqb "url_safe") names) eqn:Hu.
  - rewrite (url_sentinel_only names Hac Hu). simpl. lia.
  - destruct (ensure_classes _ _ _ _ Hok Hu) as [_ Hle].
    pose proof (filter_length_le non_url names). lia.
Qed.

(** ** Seeds are distinct pool characters *)

Lemma Forall2_In_r {A B} (R : A -> B -> Prop) l1 l2 y :
  Forall2 R l1 l2 -> In y l2 -> exists x, In x l1 /\ R x y.
Proof.
  induction 1 as [|x y' l1 l2 Hxy _ IH]; simpl; [contradiction|].
  intros [<-|Hy]; [eauto|]. destruct (IH Hy) as (x' & Hx' & Hr). eauto.
Qed.

Lemma seeded_from_pool pool n c :
  seeded_from (build_pool_map pool) n c ->
  exists base, get n standard_classes = Some base /\ In c pool /\ In c base.
Proof.
  intros (s & Hg & Hc). apply get_pool_map in Hg. destruct Hg as (base & Hb & ->).
  apply In_inter_sorted in Hc. exists base. tauto.
Qed.

Lemma seeds_distinct pool names seeds :
  NoDup names -> Forall2 (seeded_from (build_pool_map pool)) names seeds ->
  NoDup seeds /\ (forall c, In c seeds -> In c pool).
Proof.
  intros Hnd H. induction H as [|n c names seeds Hnc Hrest IH]; [split; [constructor | contradiction]|].
  inversion Hnd as [|? ? Hn Hnd']; subst. destruct (IH Hnd') as [Hs Hin].
  destruct (seeded_from_pool _ _ _ Hnc) as (b1 & Hb1 & Hcp & Hcb1).
  split.
  - constructor; [|exact Hs]. intros Hc.
    destruct (Forall2_In_r _ _ _ _ Hrest Hc) as (n2 & Hn2 & H2).
    destruct (seeded_from_pool _ _ _ H2) as (b2 & Hb2 & _ & Hcb2).
    assert (n = n2) by (eapply standard_classes_disjoint; eauto). subst. contradiction.
  - intros x [<-|Hx]; auto.
Qed.

Lemma available_length pool seeds :
  NoDup pool -> NoDup seeds -> (forall c, In c seeds -> In c pool) ->
  List.length (filter (fun c => negb (mem c seeds)) pool) + List.length seeds
  = List.length pool.
Proof.
  intros Hp Hs Hsub.
  rewrite <- (filter_length (fun c => mem c seeds) pool).
  enough (List.length (filter (fun c => mem c seeds) pool) = List.length seeds) by lia.
  apply Nat.le_antisymm.
  - apply NoDup_incl_length; [now apply NoDup_filter|].
    intros c Hc. apply filter_In in Hc. now apply mem_In.
  - apply NoDup_incl_length; [exact Hs|].
    intros c Hc. apply filter_In. split; [auto | now apply mem_In].
Qed.

Section Success.

Variable draw : nat -> nat.

Lemma seed_ok pool names args st :
  active_classes_ok names ->
  ensure_requirements (length args) names (require_classes args) (no_repeat args) pool
    = inr tt ->
  exists seeds st', seed draw (build_pool_map pool) names args st = inr (seeds, st').
Proof.
  intros Hac Hok. unfold seed.
  destruct (require_classes args) eqn:Hrc; [|unfold ret; simpl; eauto].
  destruct (url_safe args); simpl; [unfold ret; eauto|].
  apply pick_ok. intros n Hn Hnu.
  destruct (existsb (String.eqb "url_safe") names) eqn:Hu.
  - rewrite (url_sentinel_only names Hac Hu) in Hn. destruct Hn as [<-|[]].
    discriminate.
  - exact (proj1 (ensure_classes _ _ _ _ Hok Hu) n Hn).
Qed.

Lemma generate_one_ok pool names args st :
  pool_ok pool -> active_classes_ok names ->
  ensure_requirements (length args) names (require_classes args) (no_repeat args) pool
    = inr tt ->
  exists pwd st', generate_one draw pool (build_pool_map pool) names args st = inr (pwd, st').
Proof.
  intros [Hpnd Hpne] Hac Hok.
  destruct (seed_ok pool names args st Hac Hok) as (seeds & st1 & Hs).
  pose proof (seed_spec draw _ _ _ _ _ _ Hs) as Hrel.
  pose proof (seeds_bounded _ _ _ _ Hac Hok Hrel) as Hbound.
  unfold generate_one. unfold bind at 1. rewrite Hs.
  destruct (no_repeat args) eqn:Hnr.
  - unfold bind.
    destruct (secure_shuffle_ok draw (filter (fun c => negb (mem c seeds)) pool) st1)
      as (av & st2 & Hsh & Hperm).
    rewrite Hsh.
    assert (Hsd : NoDup seeds /\ (forall c, In c seeds -> In c pool)).
    { unfold seed_rel in Hrel.
      destruct (require_classes args && negb (url_safe args)).
      - apply (seeds_distinct pool (filter non_url names)); [|exact Hrel].
        apply NoDup_filter. exact (proj1 Hac).
      - subst seeds. split; [constructor | contradiction]. }
    destruct Hsd as [Hsnd Hsin].
    pose proof (available_length pool seeds Hpnd Hsnd Hsin) as Hav.
    rewrite (Permutation_length Hperm) in Hav.
    pose proof (ensure_pool_size _ _ _ _ Hok) as Hps.
    destruct (Z.of_nat (List.length av) <? _)%Z eqn:Hlt.
    + exfalso. apply Z.ltb_lt in Hlt.
      destruct (Z.ltb_spec (length args - Z.of_nat (List.length seeds)) 0); lia.
    + unfold ret.
      destruct (secure_shuffle_ok draw (seeds ++ firstn
          (Z.to_nat (if (length args - Z.of_nat (List.length seeds) <? 0)%Z then 0%Z
                     else (length args - Z.of_nat (List.length seeds))%Z)) av) st2)
        as (core & st3 & Hsh2 & _).
      rewrite Hsh2. eauto.
  - unfold bind.
    destruct (choices_ok draw
      (Z.to_nat (if (length args - Z.of_nat (List.length seeds) <? 0)%Z then 0%Z
                 else (length args - Z.of_nat (List.length seeds))%Z)) pool st1 Hpne)
      as (fill & st2 & Hc).
    rewrite Hc.
    destruct (secure_shuffle_ok draw (seeds ++ fill) st2) as (core & st3 & Hsh2 & _).
    rewrite Hsh2. unfold ret. eauto.
Qed.

End Success.

(** ** Shape of a core *)

Lemma seeds_in_pool pool names args seeds :
  seed_rel (build_pool_map pool) names args seeds -> forall c, In c seeds -> In c pool.
Proof.
  unfold seed_rel. destruct (require_classes args && negb (url_safe args)).
  - intros H c Hc. destruct (Forall2_In_r _ _ _ _ H Hc) as (n & _ & Hn).
    destruct (seeded_from_pool _ _ _ Hn) as (b & _ & Hp & _). exact Hp.
  - intros -> c [].
Qed.

Lemma core_props pool names args seeds fill core :
  active_classes_ok names ->
  ensure_requirements (length args) names (require_classes args) (no_repeat args) pool
    = inr tt ->
  seed_rel (build_pool_map pool) names args seeds ->
  List.length fill = Z.to_nat (length args - Z.of_nat (List.length seeds)) ->
  (forall c, In c fill -> In c pool) ->
  Permutation (seeds ++ fill) core ->
  Z.of_nat (List.length core) = length args /\ (forall c, In c core -> In c pool).
Proof.
  intros Hac Hok Hs Hl Hf Hp.
  pose proof (seeds_bounded _ _ _ _ Hac Hok Hs) as Hb.
  split.
  - rewrite <- (Permutation_length Hp), length_app, Hl. lia.
  - intros c Hc. apply (Permutation_in _ (Permutation_sym Hp)) in Hc.
    apply in_app_or in Hc. destruct Hc as [Hc|Hc]; [eapply seeds_in_pool; eauto | auto].
Qed.

(** * The claims *)

(** ** C8 *)

(** C8: a successful [generate_passwords] on a validated configuration
    returns [count] passwords, each [prefix ++ core ++ suffix] with a core of
    exactly [length] pool characters (repeats permitted unless [no_repeat]). *)
Theorem generate_passwords_shape draw pool names args st pwds st' :
  active_classes_ok names ->
  ensure_requirements (length args) names (require_classes args) (no_repeat args) pool
    = inr tt ->
  (0 <= count args)%Z ->
  generate_passwords draw pool names args st = inr (pwds, st') ->
  Z.of_nat (List.length pwds) = count args /\
  Forall (fun pwd => exists core,
            pwd = prefix args ++ core ++ suffix args /\
            Z.of_nat (List.length core) = length args /\
            (forall c, In c core -> In c pool)) pwds.
Proof.
  intros Hac Hok Hcnt H. unfold generate_passwords in H.
  apply generate_loop_spec in H. destruct H as [Hl Hall].
  split; [rewrite Hl; lia|].
  eapply Forall_impl; [|exact Hall].
  intros pwd (seeds & fill & core & -> & Hp & Hs & Hfl & Hf & _).
  exists core. split; [reflexivity|]. eapply core_props; eauto.
Qed.

(** ** C1 *)

(** C1: with [no_repeat], every core of a validated run has [length]
    pairwise-distinct characters, all from the pool. *)
Theorem generate_no_repeat_distinct draw pool names args st pwds st' :
  pool_ok pool -> active_classes_ok names ->
  no_repeat args = true ->
  ensure_requirements (length args) names (require_classes args) (no_repeat args) pool
    = inr tt ->
  generate_passwords draw pool names args st = inr (pwds, st') ->
  Forall (fun pwd => exists core,
            pwd = prefix args ++ core ++ suffix args /\
            Z.of_nat (List.length core) = length args /\
            NoDup core /\
            (forall c, In c core -> In c pool)) pwds.
Proof.
  intros [Hpnd _] Hac Hnr Hok H. unfold generate_passwords in H.
  apply generate_loop_spec in H. destruct H as [_ Hall].
  eapply Forall_impl; [|exact Hall].
  intros pwd (seeds & fill & core & -> & Hp & Hs & Hfl & Hf & Hnrp).
  destruct (Hnrp Hnr) as [Hdisj Hfnd].
  destruct (core_props _ _ _ _ _ _ Hac Hok Hs Hfl Hf Hp) as [Hlen Hin].
  exists core. repeat split; auto.
  eapply Permutation_NoDup; [exact Hp|].
  apply NoDup_app; [| now apply Hfnd | intros c Hc1 Hc2; exact (Hdisj c Hc2 Hc1)].
  unfold seed_rel in Hs. destruct (require_classes args && negb (url_safe args)).
  - apply (seeds_distinct pool (filter non_url names)); [|exact Hs].
    apply NoDup_filter. exact (proj1 Hac).
  - subst seeds. constructor.
Qed.

(** ** C2 *)

(** C2: with [require_classes] and [url_safe] off, every core contains, for
    each active class, a character of the pool's slice of that class. *)
Theorem generate_require_classes draw pool names args st pwds st' :
  require_classes args = true -> url_safe args = false ->
  generate_passwords draw pool names args st = inr (pwds, st') ->
  Forall (fun pwd => exists core,
            pwd = prefix args ++ core ++ suffix args /\
            forall n base, In n names -> get n standard_classes = Some base ->
              exists c, In c core /\ In c pool /\ In c base) pwds.
Proof.
  intros Hrc Hu H. unfold generate_passwords in H.
  apply generate_loop_spec in H. destruct H as [_ Hall].
  eapply Forall_impl; [|exact Hall].
  intros pwd (seeds & fill & core & -> & Hp & Hs & _).
  exists core. split; [reflexivity|].
  intros n base Hn Hb.
  unfold seed_rel in Hs. rewrite Hrc, Hu in Hs. simpl in Hs.
  assert (Hnu : In n (filter non_url names)).
  { apply filter_In. split; [exact Hn|]. unfold non_url.
    destruct (String.eqb_spec n "url_safe"); [subst; discriminate | reflexivity]. }
  assert (Hsub : forall c, In c seeds -> In c core).
  { intros c Hc. apply (Permutation_in _ Hp). apply in_or_app. now left. }
  clear Hn Hp. revert Hnu Hsub.
  induction Hs as [|m c ms cs Hmc Hrest IH]; [intros []|].
  intros [<-|Hin] Hsub.
  - destruct (seeded_from_pool _ _ _ Hmc) as (b & Hb' & Hcp & Hcb).
    rewrite Hb in Hb'. injection Hb' as <-.
    exists c. repeat split; auto. apply Hsub. now left.
  - apply IH; [exact Hin|]. intros x Hx. apply Hsub. now right.
Qed.

(** ** C10 *)

(** C10: on inputs accepted by [ensure_requirements] (with a duplicate-free,
    non-empty pool and a well-formed active-class list), [generate_passwords]
    never fails: no [InsufficientUniqueChars] and no draw from an empty
    slice; the four class slices are pairwise disjoint. *)
Theorem generate_validated_succeeds draw pool names args st :
  pool_ok pool -> active_classes_ok names ->
  ensure_requirements (length args) names (require_classes args) (no_repeat args) pool
    = inr tt ->
  (forall n1 n2 b1 b2 c, get n1 standard_classes = Some b1 ->
     get n2 standard_classes = Some b2 -> In c b1 -> In c b2 -> n1 = n2) /\
  exists pwds st', generate_passwords draw pool names args st = inr (pwds, st').
Proof.
  intros Hp Hac Hok. split; [exact standard_classes_disjoint|].
  unfold generate_passwords. apply generate_loop_ok.
  intros st1. exact (generate_one_ok draw pool names args st1 Hp Hac Hok).
Qed.

(** ** Pool construction *)

Ltac reduce_build_pool :=
  unfold build_pool;
  cbn -[sort_uniq filter mem URL_SAFE_UNRESERVED ascii_lowercase ascii_uppercase
        string_digits punctuation AMBIGUOUS_DEFAULT whitespace].

Lemma finish_pool_neq (X : list nat) (names : list string) :
  match X with [] => inl EmptyPool | _ :: _ => inr (sort_uniq X, names) end
  <> (inl EmptySelection : err + (list nat * list string)).
Proof. destruct X; discriminate. Qed.

Lemma finish_pool_inr (Y : list nat) (names names' : list string) pool :
  match filter (fun c => negb (mem c whitespace)) Y with
  | [] => inl EmptyPool
  | _ :: _ => inr (sort_uniq (filter (fun c => negb (mem c whitespace)) Y), names)
  end = inr (pool, names') ->
  Sorted lt pool /\ NoDup pool /\ (forall c, In c pool -> ~ In c whitespace) /\
  pool <> [] /\ names' = names.
Proof.
  destruct (filter _ Y) as [|x l] eqn:Hf; [discriminate|].
  intros H.
  assert (Hpool : pool = sort_uniq (x :: l)) by congruence.
  assert (Hn : names' = names) by congruence.
  subst pool names'. rewrite <- Hf.
  repeat split.
  - apply Sorted_sort_uniq.
  - apply NoDup_sort_uniq.
  - intros c Hc Hw. apply In_sort_uniq, filter_In in Hc. destruct Hc as [_ Hc].
    apply mem_In in Hw. rewrite Hw in Hc. discriminate.
  - rewrite Hf. intros He. assert (Hx : In x (sort_uniq (x :: l))) by (apply In_sort_uniq; now left).
    rewrite He in Hx. contradiction.
Qed.

(** ** C7 *)

(** C7: a successful [build_pool] returns a strictly ascending (hence
    duplicate-free), whitespace-free, non-empty pool and a non-empty list of
    active classes. *)
Theorem build_pool_invariants args pool names :
  build_pool args = inr (pool, names) ->
  Sorted lt pool /\ NoDup pool /\ (forall c, In c pool -> ~ In c [9; 10; 13; 32]) /\
  pool <> [] /\ names <> [].
Proof.
  destruct args as [len cnt lo up di sy ss ex na nr rc us pre suf].
  destruct us, lo, up, di, sy; reduce_build_pool; intros H;
    apply finish_pool_inr in H; destruct H as (Hs & Hnd & Hw & Hne & ->);
    (repeat split; [exact Hs | exact Hnd | | exact Hne | discriminate]);
    intros c Hc Hin; apply (Hw c Hc); simpl in *; tauto.
Qed.

(** ** C4 *)

Lemma forallb_mem_incl (l1 l2 : list nat) :
  forallb (fun c => mem c l2) l1 = true -> forall c, In c l1 -> In c l2.
Proof.
  rewrite forallb_forall. intros H c Hc. apply mem_In. now apply H.
Qed.

Lemma generate_one_url_safe draw pool pm names args :
  url_safe args = true ->
  generate_one draw pool pm names args
  = generate_one draw pool pm names (with_require_classes args false).
Proof.
  destruct args as [len cnt lo up di sy ss ex na nr rc us pre suf]; simpl.
  intros ->. destruct rc; reflexivity.
Qed.

Lemma generate_loop_url_safe draw n pool pm names args :
  url_safe args = true ->
  generate_loop draw n pool pm names args
  = generate_loop draw n pool pm names (with_require_classes args false).
Proof.
  intros Hu. induction n as [|n IH]; simpl; [reflexivity|].
  rewrite IH, (generate_one_url_safe draw pool pm names args Hu). reflexivity.
Qed.

(** C4, counterexample: the URL-safe pool built from the defaults with
    [--url-safe] has 66 characters, not 64. *)
Lemma build_pool_url_safe_cex :
  build_pool (mkArgs 10 1 false false false false None [] false false false true [] [])
  = inr (chars "-.0123456789ABCDEFGHIJKLMNOPQRSTUVWXYZ_abcdefghijklmnopqrstuvwxyz~",
         ["url_safe"]) /\
  List.length (chars "-.0123456789ABCDEFGHIJKLMNOPQRSTUVWXYZ_abcdefghijklmnopqrstuvwxyz~")
  <> 64.
Proof. split; [vm_compute; reflexivity | discriminate]. Qed.

(** C4, as the code does it: with [url_safe] and no exclusions, [build_pool]
    ignores every class flag and returns the set [A-Z a-z 0-9 - . _ ~], which
    has 66 characters, with the single sentinel class; [require_classes] then
    has no effect on generation (no seeding). *)
Theorem build_pool_url_safe args :
  url_safe args = true -> exclude args = [] ->
  (exists pool, build_pool args = inr (pool, ["url_safe"]) /\
     List.length pool = 66 /\ (forall c, In c pool <-> In c url_unreserved_spec)) /\
  (forall draw pool names st,
     generate_passwords draw pool names args st
     = generate_passwords draw pool names (with_require_classes args false) st).
Proof.
  intros Hu Hex. split.
  - exists (chars "-.0123456789ABCDEFGHIJKLMNOPQRSTUVWXYZ_abcdefghijklmnopqrstuvwxyz~").
    split; [|split; [reflexivity|]].
    + destruct args as [len cnt lo up di sy ss ex na nr rc us pre suf].
      simpl in Hu, Hex. subst us ex. destruct na; vm_compute; reflexivity.
    + intros c. split; apply forallb_mem_incl; vm_compute; reflexivity.
  - intros draw pool names st. unfold generate_passwords.
    rewrite (generate_loop_url_safe draw _ pool _ names args Hu). reflexivity.
Qed.

(** ** C6 *)

(** C6, counterexample: with no class flag and [url_safe] off (the defaults),
    [build_pool] does not fail with [EmptySelection]. *)
Lemma build_pool_no_selection_cex :
  url_safe default_args = false /\ lower default_args = false /\
  upper default_args = false /\ digits default_args = false /\
  symbols default_args = false /\ build_pool default_args <> inl EmptySelection.
Proof.
  repeat split; try reflexivity. vm_compute. discriminate.
Qed.

(** C6, as the code does it: [build_pool] never fails with [EmptySelection];
    with [url_safe] off and no class flag set, all four classes are active,
    exactly as if the four flags had been set. *)
Theorem build_pool_default_classes :
  (forall args, build_pool args <> inl EmptySelection) /\
  (forall args, url_safe args = false -> lower args = false -> upper args = false ->
     digits args = false -> symbols args = false ->
     build_pool args = build_pool (with_all_classes args)).
Proof.
  split.
  - intros [len cnt lo up di sy ss ex na nr rc us pre suf].
    destruct us, lo, up, di, sy; reduce_build_pool; apply finish_pool_neq.
  - intros [len cnt lo up di sy ss ex na nr rc us pre suf]; simpl.
    intros -> -> -> -> ->. unfold with_all_classes. simpl.
    reduce_build_pool. reflexivity.
Qed.

(** ** C3 *)

Lemma get_pool_map_none n pool :
  get n standard_classes = None -> get n (build_pool_map pool) = None.
Proof.
  unfold build_pool_map, standard_classes. simpl.
  destruct (String.eqb n "lower"); [discriminate|].
  destruct (String.eqb n "upper"); [discriminate|].
  destruct (String.eqb n "digits"); [discriminate|].
  destruct (String.eqb n "symbols"); [discriminate|].
  reflexivity.
Qed.

(** The validator's truth test of [pool_map.get(n)] is the emptiness of the
    slice of the pool. *)
Lemma truthy_slice pool n :
  negb (truthy (get n (build_pool_map pool))) = slice_empty pool n.
Proof.
  unfold slice_empty. destruct (get n standard_classes) as [base|] eqn:Hb.
  - rewrite (get_standard_pool_map n pool base Hb). unfold truthy.
    destruct (inter_sorted pool base) as [|x l] eqn:Hi.
    + destruct (existsb (fun c => mem c base) pool) eqn:He; [|reflexivity].
      apply existsb_exists in He. destruct He as (c & Hc & Hm).
      apply mem_In in Hm.
      assert (Hin : In c (inter_sorted pool base)) by (apply In_inter_sorted; auto).
      rewrite Hi in Hin. contradiction.
    + assert (Hx : In x (inter_sorted pool base)) by (rewrite Hi; now left).
      apply In_inter_sorted in Hx. destruct Hx as [Hxp Hxb].
      replace (existsb (fun c => mem c base) pool) with true; [reflexivity|].
      symmetry. apply existsb_exists. exists x. split; [exact Hxp | now apply mem_In].
  - rewrite (get_pool_map_none n pool Hb). reflexivity.
Qed.

(** C3: [ensure_requirements] is the decision list of spec §4.2: first
    [InvalidLength] (length < 1), then [PoolTooSmall] (no_repeat and length
    above the pool size), then, with [require_classes] and classes other than
    the [url_safe] sentinel, [UnsatisfiableClass] listing exactly the classes
    with an empty pool slice, then [LengthBelowClassCount]; otherwise Ok. *)
Theorem ensure_requirements_decision len names rc nr pool :
  active_classes_ok names ->
  ensure_requirements len names rc nr pool = validate_spec len names rc nr pool.
Proof.
  intros Hac. unfold ensure_requirements, validate_spec.
  destruct (len <? 1)%Z; [reflexivity|].
  rewrite Z.gtb_ltb. destruct (nr && _)%Z; [reflexivity|].
  assert (Hsent : existsb (String.eqb "url_safe") names
                  = if list_eq_dec string_dec names ["url_safe"] then true else false).
  { destruct (list_eq_dec string_dec names ["url_safe"]) as [->|Hne]; [reflexivity|].
    destruct (existsb (String.eqb "url_safe") names) eqn:He; [|reflexivity].
    exfalso. apply Hne. exact (url_sentinel_only names Hac He). }
  rewrite Hsent. destruct (rc && negb _); [|reflexivity].
  cbv zeta.
  rewrite (filter_ext (fun n => negb (truthy (get n (build_pool_map pool))))
             (slice_empty pool) (truthy_slice pool)).
  destruct (filter (slice_empty pool) names); reflexivity.
Qed.

(** ** C5 *)

(** C5, counterexample: a caller-supplied symbols set is not consulted by
    [build_pool_map], although [build_pool] uses it as the symbols class;
    with [--symbols --symbols-set ab --require-classes] the pool is [ab], its
    intersection with the override is [ab], yet the symbols slice is empty
    and [ensure_requirements] refuses the run as if the filters had emptied
    the class. *)
Lemma class_membership_override_cex :
  build_pool (mkArgs 2 1 false false false true (Some (chars "ab")) [] false false true false [] [])
  = inr (chars "ab", ["symbols"]) /\
  get "symbols" (build_pool_map (chars "ab")) = Some [] /\
  inter_sorted (chars "ab") (chars "ab") = chars "ab" /\
  ensure_requirements 2 ["symbols"] true false (chars "ab")
  = inl (UnsatisfiableClass ["symbols"]).
Proof. repeat split; vm_compute; reflexivity. Qed.

(** C5, as the code does it: [build_pool_map] has exactly the four standard
    keys, and maps each to the ascending duplicate-free intersection of the
    pool with that class's fixed base set ([string.punctuation] for symbols,
    whatever override [build_pool] used). *)
Theorem build_pool_map_slices pool :
  map fst (build_pool_map pool) = ["lower"; "upper"; "digits"; "symbols"] /\
  get "symbols" standard_classes = Some punctuation /\
  forall n base, get n standard_classes = Some base ->
    exists s, get n (build_pool_map pool) = Some s /\ Sorted lt s /\
      forall c, In c s <-> In c pool /\ In c base.
Proof.
  split; [reflexivity|]. split; [reflexivity|].
  intros n base Hb. exists (inter_sorted pool base).
  split; [now apply get_standard_pool_map|].
  split; [apply Sorted_sort_uniq | intros c; apply In_inter_sorted].
Qed.

(** ** C9 *)

(** C9, counterexample: with a length of [2^1024] (accepted by the CLI
    with [-n 0 --show-entropy]), converting [length] to a float overflows and
    [bits_of_entropy] raises [OverflowError] instead of returning a float. *)
Lemma bits_of_entropy_overflow_cex :
  bits_of_entropy (fun _ => 1.0%float) 2 (2 ^ 1024) = inl OverflowError.
Proof. vm_compute. reflexivity. Qed.

(** C9, as the code does it: [bits_of_entropy pool_size length] is exactly
    [0.0] when [pool_size <= 1] or [length <= 0]; otherwise it is the float
    product of [length] rounded to a double with [log2(pool_size)], or
    [OverflowError] when [length] does not fit in a double: the length
    [2^1024 - 2^970] does not fit, the one just below it becomes the
    largest finite double. *)
Theorem bits_of_entropy_cases log2 pool_size len :
  ((1 < pool_size)%Z -> (0 < len)%Z ->
     bits_of_entropy log2 pool_size len =
     match int_to_float len with
     | inl e => inl e
     | inr f => inr (PrimFloat.mul f (log2 pool_size))
     end) /\
  ((pool_size <= 1)%Z \/ (len <= 0)%Z -> bits_of_entropy log2 pool_size len = inr 0.0%float) /\
  int_to_float (2 ^ 1024 - 2 ^ 970) = inl OverflowError /\
  int_to_float (2 ^ 1024 - 2 ^ 970 - 1)
  = inr (FloatOps.SF2Prim (SpecFloat.S754_finite false 9007199254740991 971)).
Proof.
  unfold bits_of_entropy. split; [|split; [|split; vm_compute; reflexivity]].
  - intros H1 H2. destruct (Z.leb_spec pool_size 1); [lia|].
    destruct (Z.leb_spec len 0); [lia | reflexivity].
  - intros [H|H].
    + destruct (Z.leb_spec pool_size 1); [reflexivity | lia].
    + destruct (Z.leb_spec pool_size 1); [reflexivity|].
      destruct (Z.leb_spec len 0); [reflexivity | lia].
Qed.

(** * Witnesses: the claims' theorems applied at concrete inputs *)

Lemma sample_pool_ok : pool_ok (chars "abc").
Proof. split; [vm_compute; repeat constructor; simpl; intuition discriminate | discriminate]. Qed.

Lemma sample_names_ok : active_classes_ok ["lower"].
Proof. split; [repeat constructor; simpl; tauto | right; intros n [<-|[]]; simpl; tauto]. Qed.

Lemma generate_no_repeat_distinct_witness :
  generate_passwords sample_draw (chars "abc") ["lower"] sample_args 0
    = inr ([chars "xcab"; chars "xcab"], 8) /\
  Forall (fun pwd => exists core,
            pwd = prefix sample_args ++ core ++ suffix sample_args /\
            Z.of_nat (List.length core) = length sample_args /\
            NoDup core /\
            (forall c, In c core -> In c (chars "abc"))) [chars "xcab"; chars "xcab"].
Proof.
  split; [vm_compute; reflexivity|].
  apply (generate_no_repeat_distinct sample_draw (chars "abc") ["lower"] sample_args 0
           [chars "xcab"; chars "xcab"] 8).
  - exact sample_pool_ok.
  - exact sample_names_ok.
  - reflexivity.
  - vm_compute. reflexivity.
  - vm_compute. reflexivity.
Defined.

Lemma generate_require_classes_witness :
  Forall (fun pwd => exists core,
            pwd = prefix sample_args ++ core ++ suffix sample_args /\
            forall n base, In n ["lower"] -> get n standard_classes = Some base ->
              exists c, In c core /\ In c (chars "abc") /\ In c base)
         [chars "xcab"; chars "xcab"].
Proof.
  apply (generate_require_classes sample_draw (chars "abc") ["lower"] sample_args 0
           [chars "xcab"; chars "xcab"] 8).
  - reflexivity.
  - reflexivity.
  - vm_compute. reflexivity.
Defined.

Lemma generate_passwords_shape_witness :
  Z.of_nat (List.length [chars "xcab"; chars "xcab"]) = count sample_args /\
  Forall (fun pwd => exists core,
            pwd = prefix sample_args ++ core ++ suffix sample_args /\
            Z.of_nat (List.length core) = length sample_args /\
            (forall c, In c core -> In c (chars "abc"))) [chars "xcab"; chars "xcab"].
Proof.
  apply (generate_passwords_shape sample_draw (chars "abc") ["lower"] sample_args 0
           [chars "xcab"; chars "xcab"] 8).
  - exact sample_names_ok.
  - vm_compute. reflexivity.
  - vm_compute. discriminate.
  - vm_compute. reflexivity.
Defined.

Lemma generate_validated_succeeds_witness :
  ensure_requirements 3 ["lower"] true true (chars "abc") = inr tt /\
  exists pwds st', generate_passwords sample_draw (chars "abc") ["lower"] sample_args 0
                   = inr (pwds, st').
Proof.
  split; [vm_compute; reflexivity|].
  apply (generate_validated_succeeds sample_draw (chars "abc") ["lower"] sample_args 0).
  - exact sample_pool_ok.
  - exact sample_names_ok.
  - vm_compute. reflexivity.
Defined.

Lemma ensure_requirements_decision_witness :
  ensure_requirements 2 ["lower"; "upper"; "digits"] true false (chars "aA1")
  = validate_spec 2 ["lower"; "upper"; "digits"] true false (chars "aA1") /\
  validate_spec 2 ["lower"; "upper"; "digits"] true false (chars "aA1")
  = inl LengthBelowClassCount.
Proof.
  split; [|vm_compute; reflexivity].
  apply ensure_requirements_decision.
  split.
  - repeat constructor; simpl; intuition discriminate.
  - right. intros n Hn. simpl in *. tauto.
Defined.

Lemma build_pool_url_safe_witness :
  (exists pool, build_pool url_args = inr (pool, ["url_safe"]) /\
     List.length pool = 66 /\ (forall c, In c pool <-> In c url_unreserved_spec)) /\
  (forall draw pool names st,
     generate_passwords draw pool names url_args st
     = generate_passwords draw pool names (with_require_classes url_args false) st).
Proof. apply build_pool_url_safe; reflexivity. Defined.

Lemma build_pool_default_classes_witness :
  build_pool default_args = build_pool (with_all_classes default_args).
Proof. apply (proj2 build_pool_default_classes); reflexivity. Defined.

Lemma build_pool_invariants_witness :
  exists pool names, build_pool default_args = inr (pool, names) /\
  Sorted lt pool /\ NoDup pool /\ (forall c, In c pool -> ~ In c [9; 10; 13; 32]) /\
  pool <> [] /\ names <> [].
Proof.
  exists (sort_uniq (ascii_lowercase ++ ascii_uppercase ++ string_digits ++ punctuation)),
         ["lower"; "upper"; "digits"; "symbols"].
  split; [vm_compute; reflexivity|].
  apply (build_pool_invariants default_args). vm_compute. reflexivity.
Defined.

Lemma build_pool_map_slices_witness :
  exists s, get "symbols" (build_pool_map (chars "a!")) = Some s /\ Sorted lt s /\
    forall c, In c s <-> In c (chars "a!") /\ In c punctuation.
Proof.
  apply (proj2 (proj2 (build_pool_map_slices (chars "a!")))). reflexivity.
Defined.

Lemma bits_of_entropy_cases_witness :
  bits_of_entropy (fun _ => 2.0%float) 4 3 = inr (PrimFloat.mul 3.0 2.0) /\
  bits_of_entropy (fun _ => 2.0%float) 1 3 = inr 0.0%float.
Proof.
  split.
  - rewrite (proj1 (bits_of_entropy_cases (fun _ => 2.0%float) 4 3)) by lia.
    vm_compute. reflexivity.
  - apply (proj1 (proj2 (bits_of_entropy_cases (fun _ => 2.0%float) 1 3))). lia.
Defined.

(** * Further properties of the code *)

(** ** Helpers: membership after the filters of [build_pool] *)

Lemma negb_mem_In c s : negb (mem c s) = true <-> ~ In c s.
Proof.
  rewrite negb_true_iff. split.
  - intros H Hc. apply mem_In in Hc. congruence.
  - intros H. destruct (mem c s) eqn:E; [|reflexivity]. apply mem_In in E. contradiction.
Qed.

Lemma finish_pool_eq (Y : list nat) (names names' : list string) pool :
  match filter (fun c => negb (mem c whitespace)) Y with
  | [] => inl EmptyPool
  | _ :: _ => inr (sort_uniq (filter (fun c => negb (mem c whitespace)) Y), names)
  end = inr (pool, names') ->
  pool = sort_uniq (filter (fun c => negb (mem c whitespace)) Y) /\ names' = names.
Proof. destruct (filter _ Y); [discriminate|]. intros H. split; congruence. Qed.

Lemma ex_In_cons {A} (P : A -> Prop) x l :
  (exists n, In n (x :: l) /\ P n) <-> P x \/ (exists n, In n l /\ P n).
Proof.
  split; [intros (n & [<-|H] & Hp); eauto | intros [H|(n & H & Hp)]; eauto with datatypes].
Qed.

Lemma ex_In_nil {A} (P : A -> Prop) : (exists n, In n [] /\ P n) <-> False.
Proof. split; [intros (n & [] & _) | intros []]. Qed.

Lemma imp_tt (P : Prop) : (true = true -> P) <-> P.
Proof. tauto. Qed.

Lemma imp_ft (P : Prop) : (false = true -> P) <-> True.
Proof. split; [tauto | discriminate]. Qed.

Lemma In_nil_iff (c : nat) : In c [] <-> False.
Proof. tauto. Qed.

Lemma In_exclude_match c (ex Y : list nat) :
  In c (match ex with [] => Y | n :: l => filter (fun c => negb (mem c (n :: l))) Y end)
  <-> In c Y /\ ~ In c ex.
Proof.
  destruct ex as [|n l]; [simpl; tauto|]. rewrite filter_In, negb_mem_In. tauto.
Qed.

Lemma build_pool_members_aux args pool names :
  build_pool args = inr (pool, names) ->
  forall c, In c pool <->
    (exists n, In n names /\ In c (class_chars args n)) /\
    (no_ambiguous args && negb (url_safe args) = true -> ~ In c AMBIGUOUS_DEFAULT) /\
    ~ In c (exclude args) /\ ~ In c whitespace.
Proof.
  destruct args as [len cnt lo up di sy ss ex na nr rc us pre suf].
  destruct na, us, lo, up, di, sy; unfold build_pool;
    cbn -[sort_uniq mem URL_SAFE_UNRESERVED ascii_lowercase ascii_uppercase
        string_digits punctuation AMBIGUOUS_DEFAULT whitespace]; intros H;
    apply finish_pool_eq in H; destruct H as [-> ->]; intros c;
    rewrite ?ex_In_cons, ?ex_In_nil; unfold class_chars;
    cbn -[sort_uniq filter mem URL_SAFE_UNRESERVED ascii_lowercase ascii_uppercase
        string_digits punctuation AMBIGUOUS_DEFAULT whitespace In];
    repeat rewrite ?In_exclude_match, ?In_sort_uniq, ?filter_In, ?negb_mem_In, ?in_app_iff,
      ?imp_tt, ?imp_ft, ?In_nil_iff;
    cbn [In]; tauto.
Qed.

Lemma build_pool_ok_aux args pool names :
  build_pool args = inr (pool, names) ->
  pool_ok pool /\ active_classes_ok names /\ (url_safe args = true <-> names = ["url_safe"]).
Proof.
  destruct args as [len cnt lo up di sy ss ex na nr rc us pre suf].
  destruct us, lo, up, di, sy; reduce_build_pool; intros H;
    apply finish_pool_inr in H; destruct H as (_ & Hnd & _ & Hne & ->);
    (split; [split; assumption|]);
    (split; [split; [repeat constructor; simpl; intuition discriminate
                    | first [left; reflexivity | right; simpl; tauto]]
            | cbn [url_safe]; split; intros; first [reflexivity | discriminate]]).
Qed.

(** ** Helpers: the Fisher-Yates loop *)

Lemma nth_set_nth_eq i v l : i < List.length l -> nth i (set_nth i v l) 0 = v.
Proof.
  revert i; induction l as [|x l IH]; intros i Hi; [simpl in Hi; lia|].
  destruct i; simpl; [reflexivity|]. apply IH. simpl in Hi. lia.
Qed.

Lemma nth_set_nth_neq i j v l : i <> j -> nth j (set_nth i v l) 0 = nth j l 0.
Proof.
  revert i j; induction l as [|x l IH]; intros i j Hij; [destruct i; reflexivity|].
  destruct i, j; simpl; try reflexivity; [lia|]. apply IH. lia.
Qed.

Lemma set_nth_app i v p s : i < List.length p -> set_nth i v (p ++ s) = set_nth i v p ++ s.
Proof.
  revert i; induction p as [|x p IH]; intros i Hi; [simpl in Hi; lia|].
  destruct i; simpl; [reflexivity|]. f_equal. apply IH. simpl in Hi. lia.
Qed.

Lemma length_swap l i j : List.length (swap l i j) = List.length l.
Proof. unfold swap. rewrite !length_set_nth. reflexivity. Qed.

Lemma swap_app p s i j :
  i < List.length p -> j < List.length p -> swap (p ++ s) i j = swap p i j ++ s.
Proof.
  intros Hi Hj. unfold swap. rewrite !app_nth1 by assumption.
  rewrite set_nth_app by assumption. rewrite set_nth_app; [reflexivity|].
  rewrite length_set_nth. exact Hj.
Qed.

Lemma nth_swap_last l k j : j <= k -> k < List.length l -> nth k (swap l k j) 0 = nth j l 0.
Proof.
  intros Hjk Hk. unfold swap.
  destruct (Nat.eq_dec j k) as [->|Hne].
  - rewrite nth_set_nth_eq; [reflexivity|]. rewrite length_set_nth. exact Hk.
  - rewrite nth_set_nth_neq by lia. apply nth_set_nth_eq. exact Hk.
Qed.

Lemma last_nth (l : list nat) : l <> [] -> last l 0 = nth (List.length l - 1) l 0.
Proof.
  induction l as [|x l IH]; [congruence|]. intros _.
  destruct l as [|y l]; [reflexivity|].
  change (last (x :: y :: l) 0) with (last (y :: l) 0). rewrite IH by discriminate.
  simpl. rewrite Nat.sub_0_r. reflexivity.
Qed.

Section Draws.

Variable draw : nat -> nat.

(** The iterations up to [k] leave the elements after position [k] alone. *)
Lemma fisher_yates_app k p s st :
  k < List.length p ->
  fisher_yates draw k (p ++ s) st =
  match fisher_yates draw k p st with
  | inl e => inl e
  | inr (p', st') => inr (p' ++ s, st')
  end.
Proof.
  revert p st; induction k as [|k IH]; intros p st Hk; cbn [fisher_yates]; [reflexivity|].
  unfold bind. destruct (randbelow draw (S k + 1) st) as [e|[j st1]] eqn:Hj; [reflexivity|].
  pose proof (randbelow_spec draw _ _ _ _ Hj) as Hjlt.
  rewrite swap_app by lia. apply IH. rewrite length_swap. lia.
Qed.

Lemma fisher_yates_count k l st l' st' :
  fisher_yates draw k l st = inr (l', st') -> st' = st + k.
Proof.
  revert l st; induction k as [|k IH]; intros l st; cbn [fisher_yates].
  - unfold ret. intros H. injection H as _ <-. lia.
  - unfold bind. destruct (randbelow draw (S k + 1) st) as [e|[j st1]] eqn:Hj; [discriminate|].
    unfold randbelow in Hj. injection Hj as _ <-. intros H. apply IH in H. lia.
Qed.

End Draws.

(** For every target permutation there are draws that make the loop produce it. *)
Lemma fisher_yates_reach k : forall l l' st,
  List.length l = S k -> Permutation l l' ->
  exists js, forall draw, (forall i, i < k -> draw (st + i) = nth i js 0) ->
  fisher_yates draw k l st = inr (l', st + k).
Proof.
  induction k as [|k IH]; intros l l' st Hl Hp.
  - exists []. intros draw _. cbn [fisher_yates]. unfold ret.
    destruct l as [|x [|z l]]; simpl in Hl; try lia.
    apply Permutation_length_1_inv in Hp. subst. rewrite Nat.add_0_r. reflexivity.
  - assert (Hl'ne : l' <> []).
    { intros ->. apply Permutation_length in Hp. simpl in Hp. lia. }
    assert (Hl' : l' = removelast l' ++ [last l' 0]) by (apply app_removelast_last; exact Hl'ne).
    remember (last l' 0) as y eqn:Hy.
    assert (Hyl : In y l).
    { apply (Permutation_in _ (Permutation_sym Hp)). rewrite Hl'. apply in_or_app. right. now left. }
    destruct (In_nth l y 0 Hyl) as (j & Hj & Hnj).
    assert (HP1 : Permutation l (swap l (S k) j)) by (apply swap_perm; lia).
    remember (swap l (S k) j) as L1 eqn:HL1def.
    assert (HL1ne : L1 <> []).
    { intros ->. apply Permutation_length in HP1. simpl in HP1. lia. }
    assert (Hlast : last L1 0 = y).
    { rewrite last_nth by exact HL1ne. subst L1. rewrite length_swap, Hl.
      replace (S (S k) - 1) with (S k) by lia. rewrite nth_swap_last by lia. exact Hnj. }
    assert (HL1 : L1 = removelast L1 ++ [y]).
    { rewrite <- Hlast. apply app_removelast_last. exact HL1ne. }
    assert (Hpr : Permutation (removelast L1) (removelast l')).
    { apply Permutation_app_inv_r with (l := [y]). rewrite <- HL1, <- Hl'.
      eapply perm_trans; [apply Permutation_sym; exact HP1 | exact Hp]. }
    assert (Hlen : List.length (removelast L1) = S k).
    { apply Permutation_length in HP1. rewrite HL1, length_app in HP1. simpl in HP1. lia. }
    destruct (IH _ _ (S st) Hlen Hpr) as [js Hjs].
    exists (j :: js). intros draw Hd.
    cbn [fisher_yates]. unfold bind.
    assert (Hr : randbelow draw (S k + 1) st = inr (j, S st)).
    { unfold randbelow. replace (S k + 1) with (S (S k)) by lia.
      specialize (Hd 0 ltac:(lia)). rewrite Nat.add_0_r in Hd. simpl in Hd. rewrite Hd.
      rewrite Nat.mod_small by lia. reflexivity. }
    rewrite Hr. rewrite <- HL1def. rewrite HL1.
    rewrite fisher_yates_app by lia.
    rewrite (Hjs draw).
    + rewrite <- Hl'. f_equal. f_equal. lia.
    + intros i Hi. replace (S st + i) with (st + S i) by lia. apply (Hd (S i)). lia.
Qed.

(** ** Helpers: the generation pipeline *)

Lemma generate_cores draw pool names args st pwds st' :
  pool_ok pool -> active_classes_ok names ->
  ensure_requirements (length args) names (require_classes args) (no_repeat args) pool
    = inr tt ->
  generate_passwords draw pool names args st = inr (pwds, st') ->
  List.length pwds = Z.to_nat (count args) /\
  Forall (fun pwd => exists core,
            pwd = prefix args ++ core ++ suffix args /\
            Z.of_nat (List.length core) = length args /\
            (no_repeat args = true -> NoDup core) /\
            (forall c, In c core -> In c pool)) pwds.
Proof.
  intros [Hpnd _] Hac Hok H. unfold generate_passwords in H.
  apply generate_loop_spec in H. destruct H as [Hl Hall]. split; [exact Hl|].
  eapply Forall_impl; [|exact Hall].
  intros pwd (seeds & fill & core & -> & Hp & Hs & Hfl & Hf & Hnrp).
  destruct (core_props _ _ _ _ _ _ Hac Hok Hs Hfl Hf Hp) as [Hlen Hin].
  exists core. repeat split; auto. intros Hnr.
  destruct (Hnrp Hnr) as [Hdisj Hfnd].
  eapply Permutation_NoDup; [exact Hp|].
  apply NoDup_app; [| now apply Hfnd | intros c Hc1 Hc2; exact (Hdisj c Hc2 Hc1)].
  unfold seed_rel in Hs. destruct (require_classes args && negb (url_safe args)).
  - apply (seeds_distinct pool (filter non_url names)); [|exact Hs].
    apply NoDup_filter. exact (proj1 Hac).
  - subst seeds. constructor.
Qed.

Lemma main_passwords_inr draw args st pwds st' :
  main_passwords draw args st = inr (pwds, st') ->
  exists pool names, build_pool args = inr (pool, names) /\
    ensure_requirements (length args) names (require_classes args) (no_repeat args) pool
      = inr tt /\
    generate_passwords draw pool names args st = inr (pwds, st').
Proof.
  unfold main_passwords, raise.
  destruct (build_pool args) as [e|[pool names]] eqn:Hb; [discriminate|].
  destruct (ensure_requirements _ _ _ _ _) as [e|[]] eqn:He; [discriminate|].
  intros H. exists pool, names. auto.
Qed.

(** ** Helpers: CSV cells *)

Lemma undouble_double p : undouble_quotes (double_quotes p) = p.
Proof.
  induction p as [|x p IH]; [reflexivity|]. simpl.
  destruct (Nat.eqb_spec x 34) as [->|Hx]; simpl; [rewrite IH; reflexivity|].
  destruct (Nat.eqb_spec x 34); [contradiction|]. rewrite IH. reflexivity.
Qed.

Lemma csv_decode_cell_ok p : csv_decode_cell (csv_cell p) = p.
Proof.
  unfold csv_cell. destruct (csv_needs_quotes p) eqn:Hq.
  - simpl. rewrite removelast_last. apply undouble_double.
  - destruct p as [|x p]; [reflexivity|].
    destruct (Nat.eqb_spec x 34) as [->|Hx]; [|destruct x as [|x]; [reflexivity|]].
    + unfold csv_needs_quotes in Hq. simpl in Hq.
      rewrite orb_true_r in Hq. discriminate.
    + do 33 (destruct x as [|x]; [reflexivity|]).
      destruct x as [|x]; [lia|reflexivity].
Qed.

(** ** The properties *)

(** X1: [secure_shuffle] never fails: it returns a permutation of its input
    and consumes [len lst - 1] draws. *)
Theorem secure_shuffle_permutes draw l st :
  exists l', secure_shuffle draw l st = inr (l', st + (List.length l - 1)) /\ Permutation l l'.
Proof.
  destruct (secure_shuffle_ok draw l st) as (l' & st' & E & P).
  exists l'. pose proof (fisher_yates_count draw _ _ _ _ _ E) as Hc. subst st'. auto.
Qed.

(** X2: every permutation of the input is a possible result of
    [secure_shuffle]: some sequence of draws produces it. *)
Theorem secure_shuffle_surjective l l' st :
  Permutation l l' ->
  exists draw, secure_shuffle draw l st = inr (l', st + (List.length l - 1)).
Proof.
  intros Hp. unfold secure_shuffle.
  destruct l as [|x l].
  - apply Permutation_nil in Hp. subst. exists (fun _ => 0). simpl. unfold ret.
    rewrite Nat.add_0_r. reflexivity.
  - destruct (fisher_yates_reach (List.length (x :: l) - 1) (x :: l) l' st) as [js Hjs];
      [simpl; lia | exact Hp |].
    exists (fun i => nth (i - st) js 0). apply Hjs.
    intros i _. f_equal. lia.
Qed.

(** X3: a character is in the pool of a successful [build_pool] exactly
    when it belongs to the character set of an active class (the symbols
    override for symbols, the URL-safe set for the sentinel), it is not
    ambiguous when [no_ambiguous] applies (that is, without [url_safe]), it
    is not excluded and it is not whitespace. *)
Theorem build_pool_members args pool names :
  build_pool args = inr (pool, names) ->
  forall c, In c pool <->
    (exists n, In n names /\ In c (class_chars args n)) /\
    (no_ambiguous args && negb (url_safe args) = true -> ~ In c AMBIGUOUS_DEFAULT) /\
    ~ In c (exclude args) /\ ~ In c whitespace.
Proof. exact (build_pool_members_aux args pool names). Qed.

(** X4: the active classes of a successful [build_pool] are distinct and
    non-empty; they are the single sentinel [url_safe] exactly when
    [url_safe] is requested, and standard class names otherwise. *)
Theorem build_pool_active_classes args pool names :
  build_pool args = inr (pool, names) ->
  NoDup names /\ names <> [] /\
  (url_safe args = true <-> names = ["url_safe"]) /\
  (url_safe args = false -> forall n, In n names -> In n ["lower"; "upper"; "digits"; "symbols"]).
Proof.
  destruct args as [len cnt lo up di sy ss ex na nr rc us pre suf].
  destruct us, lo, up, di, sy; reduce_build_pool; intros H;
    apply finish_pool_inr in H; destruct H as (_ & _ & _ & _ & ->);
    (split; [repeat constructor; simpl; intuition discriminate|]);
    (split; [discriminate|]); cbn [url_safe];
    (split; [split; intros; first [reflexivity | discriminate] |]);
    intros Hu n Hn; try discriminate; simpl in Hn |- *; tauto.
Qed.

(** X5: the password pipeline of [main] fails only in [build_pool] or in
    [ensure_requirements]; once both have passed, [generate_passwords]
    never fails. *)
Theorem main_passwords_errors draw args st e :
  main_passwords draw args st = inl e ->
  build_pool args = inl e \/
  exists pool names, build_pool args = inr (pool, names) /\
    ensure_requirements (length args) names (require_classes args) (no_repeat args) pool
      = inl e.
Proof.
  unfold main_passwords, raise.
  destruct (build_pool args) as [e'|[pool names]] eqn:Hb; [intros H; left; congruence|].
  destruct (ensure_requirements _ _ _ _ _) as [e'|[]] eqn:He;
    [intros H; right; exists pool, names; split; [reflexivity | congruence]|].
  destruct (build_pool_ok_aux _ _ _ Hb) as (Hp & Hac & _).
  intros H. exfalso.
  unfold generate_passwords in H.
  destruct (generate_loop_ok draw (Z.to_nat (count args)) pool (build_pool_map pool) names args st)
    as (pwds & st' & E).
  { intros st1. exact (generate_one_ok draw pool names args st1 Hp Hac He). }
  congruence.
Qed.

(** X6: a successful run of the pipeline of [main] gives [max count 0]
    passwords, each [prefix ++ core ++ suffix] where the core has [length]
    characters, pairwise distinct under [no_repeat], none excluded, none
    whitespace, and none ambiguous when [no_ambiguous] applies. *)
Theorem main_passwords_cores draw args st pwds st' :
  main_passwords draw args st = inr (pwds, st') ->
  List.length pwds = Z.to_nat (count args) /\
  Forall (fun pwd => exists core,
     pwd = prefix args ++ core ++ suffix args /\
     Z.of_nat (List.length core) = length args /\
     (no_repeat args = true -> NoDup core) /\
     forall c, In c core ->
       ~ In c (exclude args) /\ ~ In c whitespace /\
       (no_ambiguous args && negb (url_safe args) = true -> ~ In c AMBIGUOUS_DEFAULT)) pwds.
Proof.
  intros H. destruct (main_passwords_inr _ _ _ _ _ H) as (pool & names & Hb & Hok & Hg).
  destruct (build_pool_ok_aux _ _ _ Hb) as (Hp & Hac & _).
  destruct (generate_cores _ _ _ _ _ _ _ Hp Hac Hok Hg) as [Hl Hall].
  split; [exact Hl|]. eapply Forall_impl; [|exact Hall].
  intros pwd (core & -> & Hlen & Hnd & Hin). exists core.
  split; [reflexivity|]. split; [exact Hlen|]. split; [exact Hnd|].
  intros x Hx. apply Hin in Hx. apply (build_pool_members_aux _ _ _ Hb) in Hx. tauto.
Qed.

(** X7: with [no_repeat] and [length] equal to the pool size, every core
    produced by the pipeline of [main] is a permutation of the whole pool. *)
Theorem main_passwords_full_length draw args st pwds st' pool names :
  build_pool args = inr (pool, names) -> no_repeat args = true ->
  length args = Z.of_nat (List.length pool) ->
  main_passwords draw args st = inr (pwds, st') ->
  Forall (fun pwd => exists core,
     pwd = prefix args ++ core ++ suffix args /\ Permutation pool core) pwds.
Proof.
  intros Hb Hnr Hlen H.
  destruct (main_passwords_inr _ _ _ _ _ H) as (pool' & names' & Hb' & Hok & Hg).
  rewrite Hb in Hb'. injection Hb' as <- <-.
  destruct (build_pool_ok_aux _ _ _ Hb) as (Hp & Hac & _).
  destruct (generate_cores _ _ _ _ _ _ _ Hp Hac Hok Hg) as [_ Hall].
  eapply Forall_impl; [|exact Hall].
  intros pwd (core & -> & Hcl & Hnd & Hin). exists core. split; [reflexivity|].
  specialize (Hnd Hnr).
  apply NoDup_Permutation; [exact (proj1 Hp) | exact Hnd |].
  intros c. split; [|apply Hin].
  apply (NoDup_length_incl Hnd); [lia | exact Hin].
Qed.

(** X8: with [count <= 0], [generate_passwords] returns no password, raises
    nothing and draws nothing. *)
Theorem generate_passwords_no_count draw pool names args st :
  (count args <= 0)%Z -> generate_passwords draw pool names args st = inr ([], st).
Proof.
  intros H. unfold generate_passwords. replace (Z.to_nat (count args)) with 0 by lia.
  reflexivity.
Qed.

(** X9: [_print_csv] prints the header [password] and then one cell per
    password, and standard CSV unquoting of each cell gives the password
    back. *)
Theorem print_csv_roundtrip pwds :
  exists cells, print_csv pwds = chars "password" :: cells /\
    map csv_decode_cell cells = pwds.
Proof.
  exists (map csv_cell pwds). split; [reflexivity|].
  rewrite map_map. rewrite (map_ext _ (fun p => p)) by apply csv_decode_cell_ok.
  apply map_id.
Qed.

(** X10: a successful [pick_from_each_class] over a [build_pool_map]
    returns, in order, one character for each class name other than
    [url_safe]; that name is a standard class and the character lies in the
    pool and in that class. *)
Theorem pick_from_each_class_picks draw names pool st picks st' :
  pick_from_each_class draw names (build_pool_map pool) st = inr (picks, st') ->
  Forall2 (fun n c => exists base,
             get n standard_classes = Some base /\ In c pool /\ In c base)
          (filter (fun n => negb (String.eqb n "url_safe")) names) picks.
Proof.
  intros H. apply pick_spec in H.
  eapply Forall2_impl; [|exact H]. intros n c Hs. exact (seeded_from_pool _ _ _ Hs).
Qed.

(** ** Witnesses of the properties *)

Lemma secure_shuffle_surjective_witness :
  Permutation [1; 2; 3] [3; 1; 2] /\
  exists draw, secure_shuffle draw [1; 2; 3] 0 = inr ([3; 1; 2], 2).
Proof.
  assert (Hp : Permutation [1; 2; 3] [3; 1; 2])
    by exact (Permutation_sym (Permutation_cons_append [1; 2] 3)).
  split; [exact Hp|]. exact (secure_shuffle_surjective [1; 2; 3] [3; 1; 2] 0 Hp).
Defined.

Lemma build_pool_members_witness :
  build_pool digit_args = inr (chars "23456789", ["digits"]) /\
  forall c, In c (chars "23456789") <->
    (exists n, In n ["digits"] /\ In c (class_chars digit_args n)) /\
    (no_ambiguous digit_args && negb (url_safe digit_args) = true ->
       ~ In c AMBIGUOUS_DEFAULT) /\
    ~ In c (exclude digit_args) /\ ~ In c whitespace.
Proof.
  split; [vm_compute; reflexivity|].
  apply (build_pool_members digit_args). vm_compute. reflexivity.
Defined.

Lemma build_pool_active_classes_witness :
  build_pool url_args = inr (sort_uniq URL_SAFE_UNRESERVED, ["url_safe"]) /\
  NoDup ["url_safe"] /\ ["url_safe"] <> [] /\
  (url_safe url_args = true <-> ["url_safe"] = ["url_safe"]) /\
  (url_safe url_args = false ->
     forall n, In n ["url_safe"] -> In n ["lower"; "upper"; "digits"; "symbols"]).
Proof.
  split; [vm_compute; reflexivity|].
  apply (build_pool_active_classes url_args (sort_uniq URL_SAFE_UNRESERVED)).
  vm_compute. reflexivity.
Defined.

Lemma main_passwords_errors_witness :
  let args := mkArgs 0 1 false false true false None [] false false false false [] [] in
  main_passwords sample_draw args 0 = inl InvalidLength /\
  (build_pool args = inl InvalidLength \/
   exists pool names, build_pool args = inr (pool, names) /\
     ensure_requirements (length args) names (require_classes args) (no_repeat args) pool
       = inl InvalidLength).
Proof.
  intros args. split; [vm_compute; reflexivity|].
  apply (main_passwords_errors sample_draw args 0 InvalidLength). vm_compute. reflexivity.
Defined.

Lemma main_passwords_cores_witness :
  let pwds := [chars "pw-3842"; chars "pw-7942"] in
  main_passwords sample_draw digit_args 0 = inr (pwds, 20) /\
  List.length pwds = Z.to_nat (count digit_args) /\
  Forall (fun pwd => exists core,
     pwd = prefix digit_args ++ core ++ suffix digit_args /\
     Z.of_nat (List.length core) = length digit_args /\
     (no_repeat digit_args = true -> NoDup core) /\
     forall c, In c core ->
       ~ In c (exclude digit_args) /\ ~ In c whitespace /\
       (no_ambiguous digit_args && negb (url_safe digit_args) = true ->
          ~ In c AMBIGUOUS_DEFAULT)) pwds.
Proof.
  intros pwds. split; [vm_compute; reflexivity|].
  apply (main_passwords_cores sample_draw digit_args 0 pwds 20). vm_compute. reflexivity.
Defined.

Lemma main_passwords_full_length_witness :
  let pwds := [chars "978"; chars "978"] in
  main_passwords sample_draw full_args 0 = inr (pwds, 8) /\
  Forall (fun pwd => exists core,
     pwd = prefix full_args ++ core ++ suffix full_args /\
     Permutation (chars "789") core) pwds.
Proof.
  intros pwds. split; [vm_compute; reflexivity|].
  apply (main_passwords_full_length sample_draw full_args 0 pwds 8 (chars "789") ["digits"]);
    vm_compute; reflexivity.
Defined.

Lemma generate_passwords_no_count_witness :
  let args := mkArgs 8 0 true false false false None [] false false false false [] [] in
  (count args <= 0)%Z /\
  generate_passwords sample_draw (chars "abc") ["lower"] args 5 = inr ([], 5).
Proof.
  intros args. split; [vm_compute; discriminate|].
  apply (generate_passwords_no_count sample_draw (chars "abc") ["lower"] args 5).
  vm_compute. discriminate.
Defined.

Lemma pick_from_each_class_picks_witness :
  pick_from_each_class sample_draw ["lower"; "url_safe"; "digits"]
    (build_pool_map (chars "ab12")) 0 = inr (chars "b1", 2) /\
  Forall2 (fun n c => exists base,
             get n standard_classes = Some base /\ In c (chars "ab12") /\ In c base)
          (filter (fun n => negb (String.eqb n "url_safe")) ["lower"; "url_safe"; "digits"])
          (chars "b1").
Proof.
  split; [vm_compute; reflexivity|].
  apply (pick_from_each_class_picks sample_draw ["lower"; "url_safe"; "digits"]
           (chars "ab12") 0 (chars "b1") 2).
  vm_compute. reflexivity.
Defined.
